(** * A restaurant menu: items, discounts and the menu container

    A shallow embedding of [modelos/cardapio/sobremesa.py] and of the entry
    script [app1.py].  Python objects are attribute dictionaries, Python floats
    are binary64 numbers (Rocq's primitive floats), and an operation that can
    raise returns in an error monad. *)

From Stdlib Require Import ZArith QArith Qabs Qpower Lia Lqa Floats.
From stdpp Require Import gmap strings list.

#[local] Set Warnings "-inexact-float".
#[local] Open Scope string_scope.

(** ** Python values, exceptions and instance dictionaries *)

Module Py.

(** The values the menu classes store in attributes and return. *)
Inductive val : Type :=
| VNone
| VFloat (x : float)
| VStr (s : string).

(** The exceptions the modelled operations can raise. *)
Inductive exn : Type :=
| AttributeError (attr : string)
| TypeError.

(** A call either returns or raises. *)
Inductive result (A : Type) : Type :=
| Ok (a : A)
| Raise (e : exn).

Arguments Ok {A} a.
Arguments Raise {A} e.

#[global] Instance result_ret : MRet result := @Ok.

#[global] Instance result_bind : MBind result := fun A B k r =>
  match r with
  | Ok a => k a
  | Raise e => Raise e
  end.

(** How a class declares an attribute that holds code: a plain method, or a
    property, whose getter runs on every access. *)
Inductive attr_kind : Type :=
| Method
| Property.

(** An instance's [__dict__]. *)
Abbreviation obj := (gmap string val).

(** [self.name] as an expression: a missing attribute raises. *)
Definition getattr (self : obj) (name : string) : result val :=
  match self !! name with
  | Some v => Ok v
  | None => Raise (AttributeError name)
  end.

(** [self.name = v]. *)
Definition setattr (self : obj) (name : string) (v : val) : obj :=
  <[name := v]> self.

(** [a * b] and [a - b]: defined on two floats, a [TypeError] on [None] and
    on strings against a float. *)
Definition mul (a b : val) : result val :=
  match a, b with
  | VFloat x, VFloat y => Ok (VFloat (x * y)%float)
  | _, _ => Raise TypeError
  end.

Definition sub (a b : val) : result val :=
  match a, b with
  | VFloat x, VFloat y => Ok (VFloat (x - y)%float)
  | _, _ => Raise TypeError
  end.

(** [format(v, "")] inside an f-string.  The decimal rendering of a float is
    Python's own and is taken as the parameter [fmt_float]. *)
Definition format (fmt_float : float -> string) (v : val) : string :=
  match v with
  | VNone => "None"
  | VFloat x => fmt_float x
  | VStr s => s
  end.

End Py.

Import Py.

(** ** The base class *)

Module ItemCardapio.

(** Modelled from the spec: [ItemCardapio.__init__], whose file is not among the
    sources.  The base entity carries a name and a price; the price lives in
    the attribute [_preco] that [Sobremesa.aplicar_desconto] reads. *)
Definition __init__ (self : obj) (nome preco : val) : result obj :=
  let self := setattr self "_nome" nome in
  let self := setattr self "_preco" preco in
  Ok self.

End ItemCardapio.

(** ** [modelos/cardapio/sobremesa.py] *)

Module Sobremesa.

Section Init.

(** The base-class constructor reached through [super()]. *)
Variable super_init : obj -> val -> val -> result obj.

Definition __init__ (self : obj) (nome preco tipo tamanho descricao : val)
  : result obj :=
  self ← super_init self nome preco;
  let self := setattr self "tipo" tipo in
  let self := setattr self "tamanho" tamanho in
  let self := setattr self "descricao" descricao in
  Ok self.

End Init.

(** [Sobremesa(nome, preco, tipo, tamanho, descricao)]: a fresh instance run
    through [__init__] over the base class. *)
Definition new (nome preco tipo tamanho descricao : val) : result obj :=
  __init__ ItemCardapio.__init__ ∅ nome preco tipo tamanho descricao.

(** The f-string reads [self._tipo], [self._tamanho] and [self._descricao],
    left to right, and formats each. *)
Definition __str__ (fmt_float : float -> string) (self : obj) : result string :=
  tipo ← getattr self "_tipo";
  tamanho ← getattr self "_tamanho";
  descricao ← getattr self "_descricao";
  Ok ("Tipo: " +:+ format fmt_float tipo +:+ " | Tamanho: "
      +:+ format fmt_float tamanho +:+ " | descricao: "
      +:+ format fmt_float descricao).

(** [self._preco -= (self._preco * 0.15)]: the augmented assignment loads the
    target, evaluates the right-hand side, subtracts and stores; the method
    falls off its end and returns [None]. *)
Definition aplicar_desconto (self : obj) : result (obj * val) :=
  old ← getattr self "_preco";
  cur ← getattr self "_preco";
  cut ← mul cur (VFloat 0.15);
  new ← sub old cut;
  Ok (setattr self "_preco" new, VNone).

End Sobremesa.

(** ** The drink *)

Module Bebida.

(** Modelled from the spec: [Bebida], whose file is not among the sources.  A
    drink adds a size to the name and the price. *)
Definition new (nome preco tamanho : val) : result obj :=
  self ← ItemCardapio.__init__ ∅ nome preco;
  Ok (setattr self "tamanho" tamanho).

(** Modelled from the spec: [Bebida.aplicar_desconto], price = price - price * 0.10. *)
Definition aplicar_desconto (self : obj) : result (obj * val) :=
  old ← getattr self "_preco";
  cur ← getattr self "_preco";
  cut ← mul cur (VFloat 0.10);
  new ← sub old cut;
  Ok (setattr self "_preco" new, VNone).

End Bebida.

(** ** The dish *)

Module Prato.

(** Modelled from the spec: [Prato], whose file is not among the sources.  A
    dish adds a description to the name and the price. *)
Definition new (nome preco descricao : val) : result obj :=
  self ← ItemCardapio.__init__ ∅ nome preco;
  Ok (setattr self "descricao" descricao).

(** Modelled from the spec: [Prato.aplicar_desconto].  The spec leaves the
    dish's rate open, so it is the parameter [rate]. *)
Definition aplicar_desconto (rate : float) (self : obj) : result (obj * val) :=
  old ← getattr self "_preco";
  cur ← getattr self "_preco";
  cut ← mul cur (VFloat rate);
  new ← sub old cut;
  Ok (setattr self "_preco" new, VNone).

End Prato.

(** ** Standard output *)

Module IO.

(** A computation that may write lines to standard output and may raise. *)
Definition io (A : Type) : Type := list string -> result (A * list string).

#[global] Instance io_ret : MRet io := fun A a out => Ok (a, out).

#[global] Instance io_bind : MBind io := fun A B k m out =>
  match m out with
  | Ok (a, out') => k a out'
  | Raise e => Raise e
  end.

(** [print(line)]. *)
Definition print (line : string) : io val :=
  fun out => Ok (VNone, (out ++ [line])%list).

(** A call that writes nothing. *)
Definition lift {A : Type} (r : result A) : io A :=
  fun out =>
    match r with
    | Ok a => Ok (a, out)
    | Raise e => Raise e
    end.

(** [obj.name] as an expression, for an attribute that holds code.  A method
    is bound and handed back without being run (the bound method itself is
    not among the modelled values, hence [None]); a property runs its getter
    and hands back what it returns. *)
Definition access {A : Type} (kind : attr_kind) (code : io A) : io (option A) :=
  match kind with
  | Method => mret None
  | Property => a ← code; mret (Some a)
  end.

End IO.

Import IO.

(** ** The restaurant *)

Module Restaurante.

(** Modelled from the spec: [Restaurante], whose file is not among the sources:
    a location, a category and the ordered menu. *)
Record t : Type := mk {
  location : string;
  category : string;
  menu : list obj
}.

(** Modelled from the spec: the constructor takes the location and the
    category; the menu starts empty. *)
Definition new (location category : string) : t :=
  {| location := location; category := category; menu := [] |}.

(** Modelled from the spec: [adicionar_no_cardapio] appends the item to the
    menu, with no duplicate check, no capacity limit and no error. *)
Definition adicionar_no_cardapio (self : t) (item : obj) : t * val :=
  ({| location := location self; category := category self;
      menu := (menu self ++ [item])%list |}, VNone).

(** Modelled from the spec: the display prints every item's description in
    insertion order.  [describe] is the items' [__str__]. *)
Fixpoint print_items (describe : obj -> result string) (items : list obj)
  : io val :=
  match items with
  | [] => mret VNone
  | item :: rest =>
      line ← lift (describe item);
      _ ← print line;
      print_items describe rest
  end.

(** Modelled from the spec: [exibir_cardapio] returns nothing and writes the
    descriptions to standard output. *)
Definition exibir_cardapio (describe : obj -> result string) (self : t)
  : io val :=
  print_items describe (menu self).

(** Modelled from the spec: the display operation is an operation of the
    class, that is a plain method; the spec has the entry script reference it
    without invoking it. *)
Definition exibir_cardapio_kind : attr_kind := Method.

(** The menu after adding [items] one by one. *)
Definition add_all (self : t) (items : list obj) : t :=
  foldl (fun r item => fst (adicionar_no_cardapio r item)) self items.

End Restaurante.

(** ** [app1.py] *)

Module App1.

(** The module's global names. *)
Record globals : Type := mk {
  restaurante_praca : Restaurante.t;
  bebida_suco : obj;
  prato_paozinho : obj;
  sobremesa_morango : obj
}.

Section Script.

(** The dish's discount rate and the items' [__str__], both outside the
    sources. *)
Variable prato_rate : float.
Variable describe : obj -> result string.

(** The statements the module runs when it is loaded. *)
Definition module_body : io globals :=
  let restaurante_praca := Restaurante.new "praça" "Gourmet" in
  bebida_suco ← lift (Bebida.new (VStr "Suco de Melancia") (VFloat 5.0)
                        (VStr "grande"));
  '(bebida_suco, _) ← lift (Bebida.aplicar_desconto bebida_suco);
  prato_paozinho ← lift (Prato.new (VStr "Paozinho") (VFloat 2.00)
                           (VStr "O melhor pão da cidade"));
  '(prato_paozinho, _) ← lift (Prato.aplicar_desconto prato_rate prato_paozinho);
  sobremesa_morango ← lift (Sobremesa.new (VStr "Pet Gatou") (VFloat 29.90)
                              (VStr "Doce") (VStr "pequena")
                              (VStr "Chocolate belga Amarelo"));
  '(sobremesa_morango, _) ← lift (Sobremesa.aplicar_desconto sobremesa_morango);
  let '(restaurante_praca, _) :=
    Restaurante.adicionar_no_cardapio restaurante_praca bebida_suco in
  let '(restaurante_praca, _) :=
    Restaurante.adicionar_no_cardapio restaurante_praca prato_paozinho in
  let '(restaurante_praca, _) :=
    Restaurante.adicionar_no_cardapio restaurante_praca sobremesa_morango in
  mret {| restaurante_praca := restaurante_praca;
          bebida_suco := bebida_suco;
          prato_paozinho := prato_paozinho;
          sobremesa_morango := sobremesa_morango |}.

(** [restaurante_praca.exibir_cardapio] as an expression statement: the
    attribute is accessed, its value dropped, and the function falls off its
    end.  There is no call. *)
Definition main (g : globals) : io val :=
  _ ← access Restaurante.exibir_cardapio_kind
        (Restaurante.exibir_cardapio describe (restaurante_praca g));
  mret VNone.

(** Running the file: the module body, then [main()] under the
    [__name__ == '__main__'] guard. *)
Definition run : io val :=
  g ← module_body;
  main g.

End Script.

End App1.

(** ** Binary64 arithmetic

    Python's [float] is IEEE 754 binary64 with round-to-nearest-even.  The
    primitive floats compute it; [SpecFloat] specifies it on mantissas and
    exponents.  The definitions below name what the rounding analysis needs. *)

Module Binary64.

#[local] Open Scope Z_scope.

(** The number of binary digits of a mantissa. *)
Definition digits (m : positive) : Z := Zpos (digits2_pos m).

(** The exponent binary64 gives a number of magnitude [e]: 53 bits of
    precision, and never below the subnormal exponent [-1074]. *)
Definition fexp64 (e : Z) : Z := fexp 53 1024 e.

(** What [k] right shifts of [m] leave in the record: the quotient, the round
    bit and the sticky bit. *)
Definition shifted (m : Z) (k : Z) (mrs : shr_record) : Prop :=
  shr_m mrs = m / 2 ^ k /\
  (shr_r mrs = true <-> 2 ^ k <= 2 * (m mod 2 ^ k)) /\
  (shr_s mrs = true <-> m mod 2 ^ k <> 0 /\ 2 * (m mod 2 ^ k) <> 2 ^ k).

(** The float [binary_round_aux] builds from the rounded mantissa [m] at the
    exponent [e]: a mantissa that reached [2^53] is renormalised, and an
    exponent above [971] overflows. *)
Definition pack (s : bool) (m e : Z) : spec_float :=
  if m =? 0 then S754_zero s
  else if m <? 2 ^ 53 then
    if e <=? 971 then S754_finite s (Z.to_pos m) e else S754_infinity s
  else
    if e + 1 <=? 971 then S754_finite s (2 ^ 52)%positive (e + 1)
    else S754_infinity s.

(** What [binary_round] leaves of the mantissa [M] at exponent [E]: the
    nearest multiple of the target exponent's unit, or [M] shifted left when
    the target exponent lies below [E]. *)
Definition rounded (M : positive) (E : Z) (m' : Z) : Prop :=
  let e1 := fexp64 (digits M + E) in
  let P := 2 ^ (e1 - E) in
  0 <= m' <= 2 ^ 53 /\
  ((E <= e1 /\ Zpos M / P <= m' <= Zpos M / P + 1 /\
    2 * Z.abs (m' * P - Zpos M) <= P /\
    (Zpos M mod P = 0 -> m' = Zpos M / P)) \/
   (e1 < E /\ m' = Zpos M * 2 ^ (E - e1))).

(** Powers of two as rationals. *)
Definition bpow (e : Z) : Q := (2 ^ e)%Q.

(** The largest finite double. *)
Definition max_float : Q := (inject_Z (2 ^ 53 - 1) * bpow 971)%Q.

(** The value of a float; zero for the infinities and for NaN, which
    [SFfinite] tells apart. *)
Definition SF2Q (x : spec_float) : Q :=
  match x with
  | S754_finite s m e => (inject_Z (cond_Zopp s (Zpos m)) * bpow e)%Q
  | _ => 0%Q
  end.

(** Zero or a finite number: not an infinity, not NaN. *)
Definition SFfinite (x : spec_float) : bool :=
  match x with
  | S754_zero _ | S754_finite _ _ _ => true
  | _ => false
  end.

(** A magnitude under a sign bit. *)
Definition Qsigned (s : bool) (a : Q) : Q := if s then (- a)%Q else a.

(** [r] is a finite float whose value is the rounding of the exact value [v]:
    within half a unit in the last place, and on the same side of zero. *)
Definition rounds_to (r : spec_float) (v : Q) : Prop :=
  SFfinite r = true /\
  (Qabs (SF2Q r - v) <= bpow (-53) * Qabs v + bpow (-1075))%Q /\
  ((0 <= v)%Q -> (0 <= SF2Q r)%Q) /\
  ((v <= 0)%Q -> (SF2Q r <= 0)%Q).

(** The exact value of a Python float, and whether it is a number at all. *)
Definition F2Q (x : float) : Q := SF2Q (Prim2SF x).

Definition is_finite (x : float) : bool := SFfinite (Prim2SF x).

(** Replaces the negative powers of two in the goal and the hypotheses by
    their values, for linear arithmetic. *)
Ltac bpow_consts :=
  repeat match goal with
  | |- context [bpow (Zneg ?p)] =>
      let c := eval vm_compute in (bpow (Zneg p)) in change (bpow (Zneg p)) with c
  | H : context [bpow (Zneg ?p)] |- _ =>
      let c := eval vm_compute in (bpow (Zneg p)) in change (bpow (Zneg p)) with c in H
  end.

(** Splits on the sign of [t] and removes its absolute value. *)
Ltac qabs_sign t :=
  destruct (Qlt_le_dec t 0);
  [ rewrite ?(Qabs_neg t) in * by lra | rewrite ?(Qabs_pos t) in * by lra ].

End Binary64.

Import Binary64.

(** ** Prices and repeated calls *)

Module Menu.

(** [p - p * rate] in binary64: what [self._preco -= (self._preco * rate)]
    stores for the price [p]. *)
Definition discounted (rate p : float) : float := (p - p * rate)%float.

(** The statement [self._preco -= (self._preco * rate)] and the implicit
    [return None], for any rate: the body the discount methods share. *)
Definition isub_preco (rate : float) (self : obj) : result (obj * val) :=
  old ← getattr self "_preco";
  cur ← getattr self "_preco";
  cut ← mul cur (VFloat rate);
  new ← sub old cut;
  Ok (setattr self "_preco" new, VNone).

(** [n] calls of a method on the same item, one after the other. *)
Fixpoint repeat_call (method : obj -> result (obj * val)) (n : nat) (self : obj)
  : result obj :=
  match n with
  | O => Ok self
  | S k =>
      '(self, _) ← method self;
      repeat_call method k self
  end.

(** The entry script's items as their constructors leave them, before any
    discount. *)
Definition suco_de_melancia : obj :=
  <["tamanho" := VStr "grande"]>
    (<["_preco" := VFloat 5.0]> (<["_nome" := VStr "Suco de Melancia"]> ∅)).

Definition paozinho : obj :=
  <["descricao" := VStr "O melhor pão da cidade"]>
    (<["_preco" := VFloat 2.00]> (<["_nome" := VStr "Paozinho"]> ∅)).

Definition pet_gatou : obj :=
  <["descricao" := VStr "Chocolate belga Amarelo"]>
    (<["tamanho" := VStr "pequena"]>
       (<["tipo" := VStr "Doce"]>
          (<["_preco" := VFloat 29.90]> (<["_nome" := VStr "Pet Gatou"]> ∅)))).

(** The float [x] is a number within floating-point tolerance of the exact
    [v]: one machine epsilon [2^-52] of [scale], plus the smallest positive
    double [2^-1074]. *)
Definition within_tolerance (x : float) (v scale : Q) : Prop :=
  is_finite x = true /\
  (Qabs (F2Q x - v) <= bpow (-52) * Qabs scale + bpow (-1074))%Q.

End Menu.

Import Menu.

(** * Properties *)

(** ** The rounding of binary64 multiplication and subtraction *)

Module Binary64Facts.

#[local] Open Scope Z_scope.

Lemma fexp64_eq e : fexp64 e = Z.max (e - 53) (-1074).
Proof. reflexivity. Qed.

Lemma digits_bounds m : 2 ^ (digits m - 1) <= Zpos m < 2 ^ digits m.
Proof.
  unfold digits. induction m as [m IH|m IH|]; cbn [digits2_pos].
  - rewrite Pos2Z.inj_succ, (Pos2Z.inj_xI m).
    replace (Z.succ (Zpos (digits2_pos m)) - 1) with (Z.succ (Zpos (digits2_pos m) - 1)) by lia.
    rewrite !Z.pow_succ_r by lia.
    revert IH. generalize (2 ^ (Zpos (digits2_pos m) - 1)) (2 ^ Zpos (digits2_pos m)). intros; lia.
  - rewrite Pos2Z.inj_succ, (Pos2Z.inj_xO m).
    replace (Z.succ (Zpos (digits2_pos m)) - 1) with (Z.succ (Zpos (digits2_pos m) - 1)) by lia.
    rewrite !Z.pow_succ_r by lia.
    revert IH. generalize (2 ^ (Zpos (digits2_pos m) - 1)) (2 ^ Zpos (digits2_pos m)). intros; lia.
  - cbn. lia.
Qed.

Lemma digits_pos m : 1 <= digits m.
Proof. unfold digits. lia. Qed.

Lemma iter_pos_nat {A : Type} (f : A -> A) (p : positive) (x : A) :
  SpecFloat.iter_pos f p x = Nat.iter (Pos.to_nat p) f x.
Proof.
  revert x. induction p as [p IH|p IH|]; intros x; cbn [SpecFloat.iter_pos].
  - rewrite !IH, Pos2Nat.inj_xI, Nat.iter_succ_r.
    replace (2 * Pos.to_nat p)%nat with (Pos.to_nat p + Pos.to_nat p)%nat by lia.
    now rewrite Nat.iter_add.
  - rewrite !IH, Pos2Nat.inj_xO.
    replace (2 * Pos.to_nat p)%nat with (Pos.to_nat p + Pos.to_nat p)%nat by lia.
    now rewrite Nat.iter_add.
  - reflexivity.
Qed.

Lemma shr_1_nonneg m r s :
  0 <= m ->
  shr_1 (Build_shr_record m r s) = Build_shr_record (m / 2) (Z.odd m) (r || s).
Proof.
  intros Hm. rewrite <- Z.div2_div.
  destruct m as [|[p|p|]|]; try lia; reflexivity.
Qed.

Lemma shifted_0 m : shifted m 0 (Build_shr_record m false false).
Proof.
  unfold shifted; cbn [shr_m shr_r shr_s].
  rewrite Z.pow_0_r, Z.div_1_r, Z.mod_1_r. repeat split; try lia; try discriminate.
Qed.

Lemma shifted_succ m k mrs :
  0 <= m -> 0 <= k -> shifted m k mrs -> shifted m (Z.succ k) (shr_1 mrs).
Proof.
  intros Hm Hk (Hq & Hr & Hs). destruct mrs as [q r s]; cbn [shr_m shr_r shr_s] in *.
  assert (HP : 0 < 2 ^ k) by (apply Z.pow_pos_nonneg; lia).
  rewrite shr_1_nonneg by (subst q; apply Z.div_pos; lia).
  unfold shifted; cbn [shr_m shr_r shr_s].
  rewrite Z.pow_succ_r by lia.
  assert (Hrem : m mod (2 * 2 ^ k) = m mod 2 ^ k + 2 ^ k * ((m / 2 ^ k) mod 2)).
  { rewrite (Z.mul_comm 2). apply Z.rem_mul_r; lia. }
  pose proof (Z.mod_pos_bound m (2 ^ k) HP) as Hb.
  pose proof (Zmod_odd (m / 2 ^ k)) as Hodd. rewrite <- Hq in Hodd.
  rewrite Hrem, <- Hq.
  split; [|split].
  - subst q. rewrite Z.div_div by lia. now rewrite (Z.mul_comm 2).
  - destruct (Z.odd q); rewrite Hodd; split; intros; try lia; try discriminate; reflexivity.
  - rewrite orb_true_iff, Hr, Hs.
    destruct (Z.odd q); rewrite Hodd; lia.
Qed.

Lemma shifted_iter m (k : nat) :
  0 <= m ->
  shifted m (Z.of_nat k) (Nat.iter k shr_1 (Build_shr_record m false false)).
Proof.
  intros Hm. induction k as [|k IH].
  - apply shifted_0.
  - rewrite Nat2Z.inj_succ. cbn [Nat.iter]. apply shifted_succ; auto; lia.
Qed.

Lemma shr_shifted m e n :
  0 <= m -> 0 <= n ->
  exists mrs, shr (Build_shr_record m false false) e n = (mrs, e + n) /\ shifted m n mrs.
Proof.
  intros Hm Hn. destruct n as [|p|p]; try lia.
  - exists (Build_shr_record m false false). cbn [shr]. rewrite Z.add_0_r.
    split; [reflexivity|apply shifted_0].
  - eexists. cbn [shr]. split; [reflexivity|].
    rewrite iter_pos_nat, <- positive_nat_Z. now apply shifted_iter.
Qed.

Lemma shr_nonpos mrs e n : n <= 0 -> shr mrs e n = (mrs, e).
Proof. destruct n; try lia; reflexivity. Qed.

(** Rounding the shifted record to the nearest, ties to even. *)
Lemma round_shifted m k mrs :
  0 <= m -> 0 <= k -> shifted m k mrs ->
  let m' := round_nearest_even (shr_m mrs) (loc_of_shr_record mrs) in
  m / 2 ^ k <= m' <= m / 2 ^ k + 1 /\
  2 * Z.abs (m' * 2 ^ k - m) <= 2 ^ k /\
  (m mod 2 ^ k = 0 -> m' = m / 2 ^ k).
Proof.
  intros Hm Hk (Hq & Hr & Hs). cbv zeta.
  assert (HP : 0 < 2 ^ k) by (apply Z.pow_pos_nonneg; lia).
  pose proof (Z.mod_pos_bound m (2 ^ k) HP) as Hb.
  pose proof (Z.div_mod m (2 ^ k) ltac:(lia)) as Hdm.
  destruct mrs as [q r s]; cbn [shr_m shr_r shr_s] in *.
  revert Hdm Hb Hr Hs. rewrite <- Hq.
  generalize (m mod 2 ^ k) (2 ^ k) HP. clear. intros rem P HP Hdm Hb Hr Hs.
  destruct r, s; cbn [loc_of_shr_record round_nearest_even];
    try destruct (Z.even q);
    repeat match goal with
    | H : true = true <-> _ |- _ => destruct H as [H _]; specialize (H eq_refl)
    | H : false = true <-> _ |- _ =>
        let H' := fresh in destruct H as [_ H];
        assert (H' : ~ _) by (intros H'; specialize (H H'); discriminate H); clear H
    end; lia.
Qed.

Lemma fexp64_ge e : -1074 <= fexp64 e /\ e - 53 <= fexp64 e.
Proof. rewrite fexp64_eq. lia. Qed.

Lemma digits_le_53 p : Zpos p < 2 ^ 53 -> digits p <= 53.
Proof.
  intros Hp. pose proof (digits_bounds p) as [Hlo _].
  destruct (Z_le_gt_dec (digits p) 53) as [|Hgt]; [assumption|exfalso].
  assert (2 ^ 53 <= 2 ^ (digits p - 1)) by (apply Z.pow_le_mono_r; lia).
  lia.
Qed.

Lemma round_aux_exact s (mp : positive) E :
  let e1 := fexp64 (digits mp + E) in
  let P := 2 ^ (e1 - E) in
  E <= e1 ->
  exists m',
    (Zpos mp / P <= m' <= Zpos mp / P + 1 /\
     2 * Z.abs (m' * P - Zpos mp) <= P /\
     (Zpos mp mod P = 0 -> m' = Zpos mp / P)) /\
    0 <= m' <= 2 ^ 53 /\
    binary_round_aux 53 1024 s (Zpos mp) E loc_Exact = pack s m' e1.
Proof.
  intros e1 P HE.
  destruct (shr_shifted (Zpos mp) E (e1 - E)) as (mrs & Hshr & Hsh); [lia..|].
  pose proof (round_shifted (Zpos mp) (e1 - E) mrs ltac:(lia) ltac:(lia) Hsh) as Hrnd.
  cbv zeta in Hrnd. fold P in Hrnd.
  set (m' := round_nearest_even (shr_m mrs) (loc_of_shr_record mrs)) in *.
  assert (HP : 0 < P) by (apply Z.pow_pos_nonneg; lia).
  assert (Hq : 0 <= Zpos mp / P < 2 ^ 53).
  { split; [apply Z.div_pos; lia|].
    apply Z.div_lt_upper_bound; [lia|].
    pose proof (digits_bounds mp) as [_ Hhi].
    pose proof (fexp64_ge (digits mp + E)) as [_ Hfe]. fold e1 in Hfe.
    assert (2 ^ digits mp <= 2 ^ (e1 - E + 53)) by (apply Z.pow_le_mono_r; lia).
    rewrite Z.pow_add_r in H by lia. fold P in H. lia. }
  exists m'. split; [exact Hrnd|]. split; [lia|].
  unfold binary_round_aux, shr_fexp.
  cbn [shr_record_of_loc Zdigits2]. fold (digits mp). fold (fexp64 (digits mp + E)). fold e1.
  rewrite Hshr. fold m'.
  replace (E + (e1 - E)) with e1 by lia.
  pose proof (fexp64_ge (digits mp + E)) as [He1 _]. fold e1 in He1.
  unfold pack.
  destruct (Z.eqb_spec m' 0) as [->|Hnz].
  { cbn [Zdigits2]. rewrite shr_nonpos; [reflexivity|]. fold (fexp64 (0 + e1)). rewrite fexp64_eq. lia. }
  destruct (Z.ltb_spec m' (2 ^ 53)) as [Hlt|Hge].
  - destruct m' as [|p|p] eqn:Em'; try lia.
    cbn [Zdigits2]. fold (digits p). fold (fexp64 (digits p + e1)).
    rewrite shr_nonpos.
    + cbn [shr_m Z.to_pos]. reflexivity.
    + pose proof (digits_le_53 p Hlt). rewrite fexp64_eq. lia.
  - assert (Em : m' = 2 ^ 53) by lia. rewrite Em.
    change (Zdigits2 (2 ^ 53)) with 54. fold (fexp64 (54 + e1)).
    replace (fexp64 (54 + e1) - e1) with 1 by (rewrite fexp64_eq; lia).
    cbn [shr SpecFloat.iter_pos].
    change (shr_1 {| shr_m := 2 ^ 53; shr_r := false; shr_s := false |})
      with {| shr_m := 2 ^ 52; shr_r := false; shr_s := false |}.
    cbn [shr_m]. reflexivity.
Qed.

Lemma round_aux_rounded s (M : positive) E :
  E <= fexp64 (digits M + E) ->
  exists m', rounded M E m' /\
    binary_round_aux 53 1024 s (Zpos M) E loc_Exact
    = pack s m' (fexp64 (digits M + E)).
Proof.
  intros HE. destruct (round_aux_exact s M E HE) as (m' & H1 & H2 & H3).
  exists m'. split; [|exact H3]. split; [exact H2|]. left. tauto.
Qed.

Lemma iter_xO_Z (M d : positive) : Zpos (Pos.iter xO M d) = Zpos M * 2 ^ Zpos d.
Proof.
  induction d as [|d IH] using Pos.peano_ind.
  - cbn [Pos.iter]. rewrite (Pos2Z.inj_xO M). change (2 ^ 1) with 2. lia.
  - rewrite Pos.iter_succ, (Pos2Z.inj_xO (Pos.iter xO M d)), IH, Pos2Z.inj_succ.
    rewrite Z.pow_succ_r by lia. lia.
Qed.

Lemma iter_xO_digits (M d : positive) : digits (Pos.iter xO M d) = digits M + Zpos d.
Proof.
  unfold digits. induction d as [|d IH] using Pos.peano_ind.
  - cbn [Pos.iter digits2_pos]. lia.
  - rewrite Pos.iter_succ. cbn [digits2_pos]. rewrite Pos2Z.inj_succ, IH. lia.
Qed.

Lemma round_rounded s (M : positive) E :
  exists m', rounded M E m' /\
    binary_round 53 1024 s M E = pack s m' (fexp64 (digits M + E)).
Proof.
  unfold binary_round. fold (digits M). fold (fexp64 (digits M + E)).
  set (e1 := fexp64 (digits M + E)).
  unfold shl_align. destruct (e1 - E) as [|d|d] eqn:Ed.
  - apply round_aux_rounded. fold e1. lia.
  - apply round_aux_rounded. fold e1. lia.
  - assert (Hd : E - e1 = Zpos d) by lia.
    assert (He : fexp64 (digits (Pos.iter xO M d) + e1) = e1).
    { rewrite iter_xO_digits. unfold e1. f_equal. fold e1. lia. }
    destruct (round_aux_exact s (Pos.iter xO M d) e1) as (m' & (_ & _ & Hex) & Hb & Hr).
    { rewrite He. lia. }
    rewrite He, Z.sub_diag, Z.pow_0_r, Z.mod_1_r, Z.div_1_r in Hex.
    specialize (Hex eq_refl). rewrite He in Hr.
    exists m'. split; [|exact Hr]. split; [exact Hb|]. right. fold e1.
    split; [lia|]. rewrite Hex, iter_xO_Z, Hd. reflexivity.
Qed.

Lemma bpow_pos e : (0 < bpow e)%Q.
Proof. apply Qpower_0_lt. reflexivity. Qed.

Lemma bpow_add a b : (bpow (a + b) == bpow a * bpow b)%Q.
Proof. apply Qpower_plus. intros H. discriminate H. Qed.

Lemma bpow_Z n : 0 <= n -> (bpow n == inject_Z (2 ^ n))%Q.
Proof. intros Hn. symmetry. apply (Zpower_Qpower 2 n Hn). Qed.

Lemma bpow_le a b : a <= b -> (bpow a <= bpow b)%Q.
Proof. intros H. apply Qpower_le_compat_l; [exact H|]. discriminate. Qed.

Lemma bpow_lt_inv a b : (bpow a < bpow b)%Q -> a < b.
Proof. intros H. apply (Qpower_lt_compat_l_inv 2); [exact H|]. reflexivity. Qed.

Lemma bpow_split a b : b <= a -> (bpow a == inject_Z (2 ^ (a - b)) * bpow b)%Q.
Proof.
  intros H. rewrite <- bpow_Z by lia. rewrite <- bpow_add.
  replace (a - b + b) with a by lia. reflexivity.
Qed.

Lemma bpow_half e : (bpow (e - 1) == bpow e * (1 # 2))%Q.
Proof. unfold Z.sub. rewrite bpow_add. reflexivity. Qed.

Lemma rounded_error M E m' :
  rounded M E m' ->
  (Qabs (inject_Z m' * bpow (fexp64 (digits M + E)) - inject_Z (Zpos M) * bpow E)
   <= bpow (fexp64 (digits M + E) - 1))%Q.
Proof.
  unfold rounded. set (e1 := fexp64 (digits M + E)). cbv zeta.
  intros (Hb & [(HE & _ & Herr & _)|(HE & Hm)]).
  - rewrite bpow_half, (bpow_split e1 E HE).
    set (P := 2 ^ (e1 - E)) in *.
    assert (Heq : (inject_Z m' * (inject_Z P * bpow E) - inject_Z (Zpos M) * bpow E
                   == inject_Z (m' * P - Zpos M) * bpow E)%Q).
    { unfold Z.sub. rewrite inject_Z_plus, inject_Z_mult, inject_Z_opp. ring. }
    rewrite Heq, Qabs_Qmult, (Qabs_pos (bpow E)) by (apply Qlt_le_weak, bpow_pos).
    change (Qabs (inject_Z (m' * P - Zpos M))) with (inject_Z (Z.abs (m' * P - Zpos M))).
    rewrite Zle_Qle, inject_Z_mult in Herr.
    pose proof (bpow_pos E) as HbE.
    revert Herr HbE. generalize (inject_Z (Z.abs (m' * P - Zpos M))) (inject_Z P) (bpow E).
    intros a c b Herr HbE. change (inject_Z 2) with 2%Q in Herr. nra.
  - assert (Heq : (inject_Z m' * bpow e1 - inject_Z (Zpos M) * bpow E == 0)%Q).
    { rewrite (bpow_split E e1) by lia. rewrite Hm, inject_Z_mult. ring. }
    rewrite Heq. apply Qlt_le_weak, bpow_pos.
Qed.

(** Half a unit in the last place against the value. *)
Lemma half_ulp_bound M E :
  (bpow (fexp64 (digits M + E) - 1)
   <= bpow (-53) * (inject_Z (Zpos M) * bpow E) + bpow (-1075))%Q.
Proof.
  pose proof (bpow_pos E) as HbE. pose proof (bpow_pos (-53)) as Hu.
  assert (HM : (1 <= inject_Z (Zpos M))%Q) by (change 1%Q with (inject_Z 1); rewrite <- Zle_Qle; lia).
  rewrite fexp64_eq.
  destruct (Z.max_spec (digits M + E - 53) (-1074)) as [[_ ->]|[_ ->]].
  - change (-1074 - 1) with (-1075).
    pose proof (bpow_pos (-1075)) as Heta.
    revert HM HbE Hu Heta.
    generalize (inject_Z (Zpos M)) (bpow E) (bpow (-53)) (bpow (-1075)).
    intros m b u eta HM HbE Hu Heta.
    assert (0 <= u * (m * b))%Q by (repeat apply Qmult_le_0_compat; lra). lra.
  - replace (digits M + E - 53 - 1) with ((digits M - 1) + (E + -53)) by lia.
    rewrite !bpow_add, bpow_Z by (pose proof (digits_pos M); lia).
    pose proof (digits_bounds M) as [Hlo _]. rewrite Zle_Qle in Hlo.
    pose proof (bpow_pos (-1075)).
    revert Hlo HbE Hu H. generalize (inject_Z (2 ^ (digits M - 1))) (inject_Z (Zpos M)) (bpow E) (bpow (-53)) (bpow (-1075)).
    intros lo m b u eta Hlo HbE Hu Heta.
    assert (lo * (b * u) <= m * (b * u))%Q by (apply Qmult_le_compat_r; nra).
    lra.
Qed.

Lemma Qsigned_proper s : Proper (Qeq ==> Qeq) (Qsigned s).
Proof. intros a b E. destruct s; cbn [Qsigned]; now rewrite E. Qed.

#[global] Existing Instance Qsigned_proper.

Lemma rounded_no_overflow M E m' :
  rounded M E m' ->
  (inject_Z (Zpos M) * bpow E <= max_float)%Q ->
  (m' < 2 ^ 53 /\ fexp64 (digits M + E) <= 971) \/
  (m' = 2 ^ 53 /\ fexp64 (digits M + E) <= 970).
Proof.
  intros Hr Hv. pose proof (bpow_pos E) as HbE.
  assert (Hd : digits M + E <= 1024).
  { assert (digits M - 1 + E < 1024); [|lia]. apply bpow_lt_inv.
    apply Qle_lt_trans with (inject_Z (Zpos M) * bpow E)%Q.
    - rewrite bpow_add, bpow_Z by (pose proof (digits_pos M); lia).
      apply Qmult_le_compat_r; [|lra].
      rewrite <- Zle_Qle. apply digits_bounds.
    - apply Qle_lt_trans with max_float; [exact Hv|].
      unfold max_float. rewrite (bpow_split 1024 971) by lia.
      apply Qmult_lt_compat_r; [apply bpow_pos|]. reflexivity. }
  destruct Hr as (Hb & Hr). cbv zeta in Hr.
  set (e1 := fexp64 (digits M + E)) in *.
  assert (He1 : e1 <= 971) by (unfold e1; rewrite fexp64_eq; lia).
  destruct (Z.eq_dec e1 971) as [E971|]; [|lia].
  left. split; [|lia].
  destruct Hr as [(HE & Hq & _ & Hex)|(HE & Hm)].
  - set (P := 2 ^ (e1 - E)) in *.
    assert (HP : 0 < P) by (apply Z.pow_pos_nonneg; lia).
    assert (HM : Zpos M <= (2 ^ 53 - 1) * P).
    { rewrite Zle_Qle, inject_Z_mult.
      unfold max_float in Hv. rewrite (bpow_split 971 E) in Hv by lia.
      rewrite <- E971 in Hv. fold P in Hv.
      revert Hv HbE. generalize (inject_Z (Zpos M)) (inject_Z (2 ^ 53 - 1)) (inject_Z P) (bpow E).
      intros m c p b Hv HbE.
      apply (Qmult_le_r _ _ b HbE). lra. }
    assert (Hq' : Zpos M / P <= 2 ^ 53 - 1).
    { apply Z.div_le_upper_bound; lia. }
    destruct (Z.eq_dec m' (2 ^ 53)) as [Em|]; [exfalso|lia].
    assert (Eq : Zpos M / P = 2 ^ 53 - 1) by lia.
    pose proof (Z.div_mod (Zpos M) P ltac:(lia)) as Hdm.
    pose proof (Z.mod_pos_bound (Zpos M) P HP) as Hmod.
    rewrite Eq in Hdm.
    assert (Zpos M mod P = 0) by lia.
    specialize (Hex H). lia.
  - pose proof (digits_bounds M) as [_ Hhi].
    pose proof (fexp64_ge (digits M + E)) as [_ Hfe]. fold e1 in Hfe.
    assert (2 ^ digits M * 2 ^ (E - e1) <= 2 ^ 53).
    { rewrite <- Z.pow_add_r by (pose proof (digits_pos M); lia).
      apply Z.pow_le_mono_r; lia. }
    assert (0 < 2 ^ (E - e1)) by (apply Z.pow_pos_nonneg; lia).
    nia.
Qed.

Lemma pack_value s m' e1 :
  0 <= m' ->
  (m' < 2 ^ 53 /\ e1 <= 971) \/ (m' = 2 ^ 53 /\ e1 <= 970) ->
  SFfinite (pack s m' e1) = true /\
  (SF2Q (pack s m' e1) == Qsigned s (inject_Z m' * bpow e1))%Q.
Proof.
  intros H0 Hc. unfold pack.
  destruct (Z.eqb_spec m' 0) as [->|Hnz].
  { split; [reflexivity|]. cbn [SF2Q]. destruct s; cbn [Qsigned]; ring. }
  destruct (Z.ltb_spec m' (2 ^ 53)) as [Hlt|Hge].
  - destruct (Z.leb_spec e1 971); [|lia]. split; [reflexivity|].
    cbn [SF2Q]. rewrite Z2Pos.id by lia.
    destruct s; cbn [cond_Zopp Qsigned]; [rewrite inject_Z_opp|]; ring.
  - destruct Hc as [?|[-> He]]; [lia|].
    destruct (Z.leb_spec (e1 + 1) 971); [|lia]. split; [reflexivity|].
    cbn [SF2Q]. rewrite bpow_add. generalize (bpow e1). intros b.
    assert (E53 : (inject_Z (2 ^ 53) == inject_Z (Zpos (2 ^ 52)) * bpow 1)%Q) by reflexivity.
    destruct s; cbn [cond_Zopp Qsigned]; rewrite E53.
    + change (inject_Z (- Zpos (2 ^ 52))) with (- inject_Z (Zpos (2 ^ 52)))%Q. ring.
    + ring.
Qed.

Lemma rounds_to_exact r v :
  SFfinite r = true -> (SF2Q r == v)%Q -> rounds_to r v.
Proof.
  intros Hf Hv. split; [exact Hf|]. rewrite Hv. repeat split; try lra.
  assert (E0 : (v - v == 0)%Q) by ring. rewrite E0. cbn [Qabs Z.abs].
  pose proof (Qabs_nonneg v). pose proof (bpow_pos (-53)). pose proof (bpow_pos (-1075)).
  revert H H0 H1. generalize (Qabs v) (bpow (-53)) (bpow (-1075)). intros a u eta ? ? ?.
  assert (0 <= u * a)%Q by (apply Qmult_le_0_compat; lra).
  change (Z.abs 0 # 1) with 0%Q. lra.
Qed.

Lemma rounds_to_signed s a v0 r :
  SFfinite r = true ->
  (SF2Q r == Qsigned s a)%Q ->
  (0 <= a)%Q -> (0 < v0)%Q ->
  (Qabs (a - v0) <= bpow (-53) * v0 + bpow (-1075))%Q ->
  rounds_to r (Qsigned s v0).
Proof.
  intros Hf Hr Ha Hv Herr. split; [exact Hf|]. rewrite Hr.
  apply Qabs_Qle_condition in Herr.
  destruct s; cbn [Qsigned].
  - rewrite (Qabs_neg (- v0)) by lra. split; [|split; intros; lra].
    apply Qabs_Qle_condition.
    revert Herr. generalize (bpow (-53)) (bpow (-1075)). intros u eta Herr.
    assert (E0 : (u * - - v0 == u * v0)%Q) by ring. rewrite E0. lra.
  - rewrite (Qabs_pos v0) by lra. split; [|split; intros; lra].
    apply Qabs_Qle_condition. lra.
Qed.

Lemma rounded_pack s M E m' :
  rounded M E m' ->
  (inject_Z (Zpos M) * bpow E <= max_float)%Q ->
  rounds_to (pack s m' (fexp64 (digits M + E)))
            (Qsigned s (inject_Z (Zpos M) * bpow E)).
Proof.
  intros Hr Hv.
  pose proof (rounded_no_overflow M E m' Hr Hv) as Hno.
  pose proof (rounded_error M E m' Hr) as Herr.
  pose proof (half_ulp_bound M E) as Hulp.
  destruct Hr as (Hb & _).
  destruct (pack_value s m' _ (proj1 Hb) Hno) as (Hf & Hval).
  pose proof (bpow_pos E). pose proof (bpow_pos (fexp64 (digits M + E))).
  apply rounds_to_signed with (a := (inject_Z m' * bpow (fexp64 (digits M + E)))%Q);
    try assumption.
  - apply Qmult_le_0_compat; [|lra]. change 0%Q with (inject_Z 0). rewrite <- Zle_Qle. lia.
  - apply Qmult_lt_0_compat; [|lra]. change 0%Q with (inject_Z 0). rewrite <- Zlt_Qlt. lia.
  - eapply Qle_trans; eassumption.
Qed.

Lemma binary_round_rounds s M E :
  (inject_Z (Zpos M) * bpow E <= max_float)%Q ->
  rounds_to (binary_round 53 1024 s M E) (Qsigned s (inject_Z (Zpos M) * bpow E)).
Proof.
  intros Hv. destruct (round_rounded s M E) as (m' & Hr & ->).
  now apply rounded_pack.
Qed.

Lemma binary_round_aux_rounds s M E :
  E <= fexp64 (digits M + E) ->
  (inject_Z (Zpos M) * bpow E <= max_float)%Q ->
  rounds_to (binary_round_aux 53 1024 s (Zpos M) E loc_Exact)
            (Qsigned s (inject_Z (Zpos M) * bpow E)).
Proof.
  intros HE Hv. destruct (round_aux_rounded s M E HE) as (m' & Hr & ->).
  now apply rounded_pack.
Qed.

Lemma rounds_to_proper r v v' : (v == v')%Q -> rounds_to r v -> rounds_to r v'.
Proof.
  intros E (Hf & Herr & Hp & Hn). split; [exact Hf|].
  rewrite <- E. repeat split; assumption.
Qed.

Lemma inject_Z_cond_Zopp s z : (inject_Z (cond_Zopp s z) == Qsigned s (inject_Z z))%Q.
Proof. destruct s; cbn [cond_Zopp Qsigned]; [rewrite inject_Z_opp|]; reflexivity. Qed.

Lemma Qsigned_mult s1 s2 a b :
  (Qsigned s1 a * Qsigned s2 b == Qsigned (xorb s1 s2) (a * b))%Q.
Proof. destruct s1, s2; cbn [Qsigned xorb]; ring. Qed.

Lemma Qabs_Qsigned s a : (0 <= a)%Q -> (Qabs (Qsigned s a) == a)%Q.
Proof.
  intros Ha. destruct s; cbn [Qsigned]; [rewrite Qabs_opp|]; now apply Qabs_pos.
Qed.

Lemma valid_finite s m e :
  SpecFloat.valid_binary 53 1024 (S754_finite s m e) = true ->
  fexp64 (digits m + e) = e /\ e <= 971.
Proof.
  cbn [SpecFloat.valid_binary]. unfold bounded, canonical_mantissa.
  rewrite andb_true_iff, Z.eqb_eq, Z.leb_le. intros [H1 H2]. split; [exact H1|exact H2].
Qed.

Lemma digits_mul m1 m2 : digits m1 + digits m2 - 1 <= digits (m1 * m2).
Proof.
  pose proof (digits_bounds m1) as [H1 _]. pose proof (digits_bounds m2) as [H2 _].
  pose proof (digits_bounds (m1 * m2)) as [_ H3].
  pose proof (digits_pos m1). pose proof (digits_pos m2). pose proof (digits_pos (m1 * m2)).
  assert (2 ^ (digits m1 - 1 + (digits m2 - 1)) < 2 ^ digits (m1 * m2)).
  { rewrite Z.pow_add_r by lia. rewrite Pos2Z.inj_mul in H3.
    eapply Z.le_lt_trans; [|exact H3]. apply Z.mul_le_mono_nonneg; try lia.
    all: apply Z.pow_nonneg; lia. }
  apply Z.pow_lt_mono_r_iff in H5; lia.
Qed.

Lemma SFmul_rounds x y :
  SpecFloat.valid_binary 53 1024 x = true -> SpecFloat.valid_binary 53 1024 y = true ->
  SFfinite x = true -> SFfinite y = true ->
  (Qabs (SF2Q x * SF2Q y) <= max_float)%Q ->
  rounds_to (SFmul 53 1024 x y) (SF2Q x * SF2Q y).
Proof.
  intros Vx Vy Fx Fy Hv.
  destruct x as [sx|sx| |sx mx ex]; try discriminate Fx;
  destruct y as [sy|sy| |sy my ey]; try discriminate Fy; cbn [SFmul].
  - apply rounds_to_exact; [reflexivity|]. cbn [SF2Q]. ring.
  - apply rounds_to_exact; [reflexivity|]. cbn [SF2Q]. ring.
  - apply rounds_to_exact; [reflexivity|]. cbn [SF2Q]. ring.
  - apply valid_finite in Vx, Vy. destruct Vx as [Cx _], Vy as [Cy _].
    assert (Ev : (SF2Q (S754_finite sx mx ex) * SF2Q (S754_finite sy my ey)
            == Qsigned (xorb sx sy) (inject_Z (Zpos (mx * my)) * bpow (ex + ey)))%Q).
    { cbn [SF2Q]. rewrite !inject_Z_cond_Zopp, bpow_add, Pos2Z.inj_mul, inject_Z_mult.
      rewrite <- Qsigned_mult.
      destruct sx, sy; cbn [Qsigned]; ring. }
    apply (rounds_to_proper _ _ _ (Qeq_sym _ _ Ev)).
    pose proof (bpow_pos (ex + ey)).
    assert (0 < inject_Z (Zpos (mx * my)))%Q
      by (change 0%Q with (inject_Z 0); rewrite <- Zlt_Qlt; lia).
    apply binary_round_aux_rounds.
    + pose proof (digits_mul mx my). pose proof (digits_pos mx). pose proof (digits_pos my).
      rewrite fexp64_eq in *. lia.
    + rewrite Ev, Qabs_Qsigned in Hv; [exact Hv|].
      apply Qmult_le_0_compat; lra.
Qed.

Lemma shl_align_fst m e e' :
  e' <= e -> Zpos (fst (shl_align m e e')) = Zpos m * 2 ^ (e - e').
Proof.
  intros He. unfold shl_align. destruct (e' - e) as [|d|d] eqn:Ed; cbn [fst]; try lia.
  - replace (e - e') with 0 by lia. rewrite Z.pow_0_r. lia.
  - rewrite iter_xO_Z. f_equal. f_equal. lia.
Qed.

Lemma binary_normalize_rounds z e :
  (Qabs (inject_Z z * bpow e) <= max_float)%Q ->
  rounds_to (binary_normalize 53 1024 z e false) (inject_Z z * bpow e).
Proof.
  intros Hv. pose proof (bpow_pos e) as Hb.
  destruct z as [|p|p]; cbn [binary_normalize].
  - apply rounds_to_exact; [reflexivity|]. cbn [SF2Q]. ring.
  - apply (binary_round_rounds false p e).
    rewrite Qabs_pos in Hv; [exact Hv|].
    apply Qmult_le_0_compat; [|lra]. change 0%Q with (inject_Z 0). rewrite <- Zle_Qle. lia.
  - apply rounds_to_proper with (Qsigned true (inject_Z (Zpos p) * bpow e)).
    { cbn [Qsigned]. change (inject_Z (Zneg p)) with (- inject_Z (Zpos p))%Q. ring. }
    apply binary_round_rounds.
    assert (E : (inject_Z (Zneg p) * bpow e == - (inject_Z (Zpos p) * bpow e))%Q).
    { change (inject_Z (Zneg p)) with (- inject_Z (Zpos p))%Q. ring. }
    rewrite E, Qabs_opp, Qabs_pos in Hv; [exact Hv|].
    apply Qmult_le_0_compat; [|lra]. change 0%Q with (inject_Z 0). rewrite <- Zle_Qle. lia.
Qed.

Lemma SFsub_rounds x y :
  SpecFloat.valid_binary 53 1024 x = true -> SpecFloat.valid_binary 53 1024 y = true ->
  SFfinite x = true -> SFfinite y = true ->
  (Qabs (SF2Q x - SF2Q y) <= max_float)%Q ->
  rounds_to (SFsub 53 1024 x y) (SF2Q x - SF2Q y).
Proof.
  intros Vx Vy Fx Fy Hv.
  destruct x as [sx|sx| |sx mx ex]; try discriminate Fx;
  destruct y as [sy|sy| |sy my ey]; try discriminate Fy; cbn [SFsub].
  - apply rounds_to_exact; [destruct sx, sy; reflexivity|].
    destruct sx, sy; cbn [SF2Q]; ring.
  - apply rounds_to_exact; [reflexivity|]. cbn [SF2Q].
    rewrite !inject_Z_cond_Zopp. destruct sy; cbn [negb Qsigned]; ring.
  - apply rounds_to_exact; [reflexivity|]. cbn [SF2Q]. ring.
  - set (ez := Z.min ex ey).
    assert (Ev : (inject_Z (cond_Zopp sx (Zpos (fst (shl_align mx ex ez)))
                            - cond_Zopp sy (Zpos (fst (shl_align my ey ez)))) * bpow ez
                  == SF2Q (S754_finite sx mx ex) - SF2Q (S754_finite sy my ey))%Q).
    { cbn [SF2Q]. rewrite !shl_align_fst by (unfold ez; lia).
      rewrite (bpow_split ex ez), (bpow_split ey ez) by (unfold ez; lia).
      unfold Z.sub at 1. rewrite inject_Z_plus, inject_Z_opp, !inject_Z_cond_Zopp, !inject_Z_mult.
      destruct sx, sy; cbn [Qsigned]; ring. }
    apply (rounds_to_proper _ _ _ Ev).
    apply binary_normalize_rounds. rewrite Ev. exact Hv.
Qed.

(** Rounding never passes a float that bounds the exact value from above. *)
Lemma rounded_upper M E m' Mp ep :
  rounded M E m' ->
  fexp64 (digits Mp + ep) = ep ->
  (inject_Z (Zpos M) * bpow E <= inject_Z (Zpos Mp) * bpow ep)%Q ->
  (inject_Z m' * bpow (fexp64 (digits M + E)) <= inject_Z (Zpos Mp) * bpow ep)%Q.
Proof.
  intros Hr Hc Hv. pose proof (bpow_pos E) as HbE.
  assert (Hd : digits M + E <= digits Mp + ep).
  { assert (digits M - 1 + E < digits Mp + ep); [|lia]. apply bpow_lt_inv.
    apply Qle_lt_trans with (inject_Z (Zpos M) * bpow E)%Q.
    - rewrite bpow_add, bpow_Z by (pose proof (digits_pos M); lia).
      apply Qmult_le_compat_r; [|lra]. rewrite <- Zle_Qle. apply digits_bounds.
    - apply Qle_lt_trans with (1 := Hv).
      rewrite (bpow_add (digits Mp)), (bpow_Z (digits Mp)) by (pose proof (digits_pos Mp); lia).
      apply Qmult_lt_compat_r; [apply bpow_pos|]. rewrite <- Zlt_Qlt. apply digits_bounds. }
  destruct Hr as (Hb & Hr). cbv zeta in Hr.
  set (e1 := fexp64 (digits M + E)) in *.
  assert (He1 : e1 <= ep) by (unfold e1; rewrite <- Hc, !fexp64_eq; lia).
  destruct Hr as [(HE & Hq & _ & Hex)|(HE & Hm)].
  - set (P := 2 ^ (e1 - E)) in *.
    assert (HP : 0 < P) by (apply Z.pow_pos_nonneg; lia).
    set (K := Zpos Mp * 2 ^ (ep - e1)).
    assert (HK : (inject_Z (Zpos Mp) * bpow ep == inject_Z K * bpow e1)%Q).
    { unfold K. rewrite inject_Z_mult, (bpow_split ep e1) by lia. ring. }
    assert (HM : Zpos M <= K * P).
    { rewrite Zle_Qle, inject_Z_mult. rewrite HK, (bpow_split e1 E) in Hv by lia. fold P in Hv.
      revert Hv HbE. generalize (inject_Z (Zpos M)) (inject_Z K) (inject_Z P) (bpow E).
      intros m k p b Hv HbE. apply (Qmult_le_r _ _ b HbE). lra. }
    assert (Hm' : m' <= K).
    { assert (Zpos M / P <= K) by (apply Z.div_le_upper_bound; lia).
      destruct (Z.eq_dec (Zpos M / P) K) as [Eq|]; [|lia].
      pose proof (Z.div_mod (Zpos M) P ltac:(lia)) as Hdm.
      pose proof (Z.mod_pos_bound (Zpos M) P HP) as Hmod.
      rewrite Eq in Hdm. assert (Zpos M mod P = 0) by lia.
      specialize (Hex H0). lia. }
    rewrite HK. apply Qmult_le_compat_r; [|apply Qlt_le_weak, bpow_pos].
    rewrite <- Zle_Qle. exact Hm'.
  - assert (Heq : (inject_Z m' * bpow e1 == inject_Z (Zpos M) * bpow E)%Q).
    { rewrite (bpow_split E e1) by lia. rewrite Hm, inject_Z_mult. ring. }
    rewrite Heq. exact Hv.
Qed.

Lemma SF2Q_pos_inv f :
  (0 < SF2Q f)%Q -> exists m e, f = S754_finite false m e.
Proof.
  destruct f as [s|s| |s m e]; cbn [SF2Q]; try (intros H; exfalso; lra).
  intros H. destruct s; [exfalso|eauto].
  pose proof (bpow_pos e). cbn [cond_Zopp] in H.
  assert (inject_Z (- Zpos m) < 0)%Q by (change 0%Q with (inject_Z 0); rewrite <- Zlt_Qlt; lia).
  revert H H0 H1. generalize (inject_Z (- Zpos m)) (bpow e). intros a b ? ? ?. nra.
Qed.

Lemma valid_le_max f :
  SpecFloat.valid_binary 53 1024 f = true -> (Qabs (SF2Q f) <= max_float)%Q.
Proof.
  intros V. destruct f as [s|s| |s m e]; cbn [SF2Q];
    try (apply Qmult_le_0_compat; [discriminate|apply Qlt_le_weak, bpow_pos]).
  apply valid_finite in V. destruct V as [Hc He].
  rewrite inject_Z_cond_Zopp, Qabs_Qmult, Qabs_Qsigned, (Qabs_pos (bpow e));
    try (apply Qlt_le_weak, bpow_pos);
    try (change 0%Q with (inject_Z 0); rewrite <- Zle_Qle; lia).
  unfold max_float.
  assert (Hm : Zpos m <= 2 ^ 53 - 1).
  { pose proof (digits_bounds m) as [_ Hhi]. pose proof (digits_pos m).
    assert (2 ^ digits m <= 2 ^ 53) by (apply Z.pow_le_mono_r; rewrite fexp64_eq in Hc; lia).
    lia. }
  rewrite Zle_Qle in Hm. pose proof (bpow_le e 971 He). pose proof (bpow_pos e).
  assert (0 < inject_Z (Zpos m))%Q by (change 0%Q with (inject_Z 0); rewrite <- Zlt_Qlt; lia).
  revert Hm H H0 H1. generalize (inject_Z (Zpos m)) (inject_Z (2 ^ 53 - 1)) (bpow e) (bpow 971).
  intros a b c d ? ? ? ?. nra.
Qed.

(** The upper bracket for a rounded non-negative value. *)
Lemma rounded_pack_upper M E m' f :
  rounded M E m' ->
  SpecFloat.valid_binary 53 1024 f = true ->
  (inject_Z (Zpos M) * bpow E <= SF2Q f)%Q ->
  (SF2Q (pack false m' (fexp64 (digits M + E))) <= SF2Q f)%Q.
Proof.
  intros Hr Vf Hv. pose proof (bpow_pos E).
  assert (Hpos : (0 < inject_Z (Zpos M) * bpow E)%Q).
  { apply Qmult_lt_0_compat; [|lra]. change 0%Q with (inject_Z 0). rewrite <- Zlt_Qlt. lia. }
  destruct (SF2Q_pos_inv f) as (Mp & ep & ->); [lra|].
  pose proof (valid_le_max _ Vf) as Hmax.
  apply valid_finite in Vf. destruct Vf as [Hc He].
  cbn [SF2Q cond_Zopp] in *.
  rewrite Qabs_pos in Hmax by lra.
  assert (Hv' : (inject_Z (Zpos M) * bpow E <= max_float)%Q) by lra.
  pose proof (rounded_no_overflow M E m' Hr Hv') as Hno.
  pose proof (rounded_upper M E m' Mp ep Hr Hc Hv) as Hup.
  destruct Hr as (Hb & _).
  destruct (pack_value false m' _ (proj1 Hb) Hno) as (_ & Hval).
  rewrite Hval. cbn [Qsigned]. exact Hup.
Qed.

Lemma Qsigned_nonneg_inv s a : (0 < a)%Q -> (0 <= Qsigned s a)%Q -> s = false.
Proof. destruct s; cbn [Qsigned]; intros; [exfalso; lra|reflexivity]. Qed.

Lemma SFmul_upper x y f :
  SpecFloat.valid_binary 53 1024 x = true -> SpecFloat.valid_binary 53 1024 y = true ->
  SpecFloat.valid_binary 53 1024 f = true ->
  SFfinite x = true -> SFfinite y = true ->
  (0 <= SF2Q x * SF2Q y)%Q -> (SF2Q x * SF2Q y <= SF2Q f)%Q ->
  (SF2Q (SFmul 53 1024 x y) <= SF2Q f)%Q.
Proof.
  intros Vx Vy Vf Fx Fy H0 Hv.
  destruct x as [sx|sx| |sx mx ex]; try discriminate Fx;
  destruct y as [sy|sy| |sy my ey]; try discriminate Fy; cbn [SFmul];
    try (cbn [SF2Q] in *; lra).
  apply valid_finite in Vx, Vy. destruct Vx as [Cx _], Vy as [Cy _].
  assert (Ev : (SF2Q (S754_finite sx mx ex) * SF2Q (S754_finite sy my ey)
          == Qsigned (xorb sx sy) (inject_Z (Zpos (mx * my)) * bpow (ex + ey)))%Q).
  { cbn [SF2Q]. rewrite !inject_Z_cond_Zopp, bpow_add, Pos2Z.inj_mul, inject_Z_mult.
    rewrite <- Qsigned_mult.
    destruct sx, sy; cbn [Qsigned]; ring. }
  rewrite Ev in H0, Hv.
  assert (Hpos : (0 < inject_Z (Zpos (mx * my)) * bpow (ex + ey))%Q).
  { apply Qmult_lt_0_compat; [|apply bpow_pos].
    change 0%Q with (inject_Z 0). rewrite <- Zlt_Qlt. lia. }
  rewrite (Qsigned_nonneg_inv _ _ Hpos H0) in *. cbn [Qsigned] in Hv.
  destruct (round_aux_rounded false (mx * my) (ex + ey)) as (m' & Hr & ->).
  { pose proof (digits_mul mx my). pose proof (digits_pos mx). pose proof (digits_pos my).
    rewrite fexp64_eq in *. lia. }
  now apply rounded_pack_upper.
Qed.

Lemma SFsub_upper x y f :
  SpecFloat.valid_binary 53 1024 x = true -> SpecFloat.valid_binary 53 1024 y = true ->
  SpecFloat.valid_binary 53 1024 f = true ->
  SFfinite x = true -> SFfinite y = true ->
  (0 <= SF2Q x - SF2Q y)%Q -> (SF2Q x - SF2Q y <= SF2Q f)%Q ->
  (SF2Q (SFsub 53 1024 x y) <= SF2Q f)%Q.
Proof.
  intros Vx Vy Vf Fx Fy H0 Hv.
  destruct x as [sx|sx| |sx mx ex]; try discriminate Fx;
  destruct y as [sy|sy| |sy my ey]; try discriminate Fy; cbn [SFsub].
  - destruct sx, sy; cbn [SF2Q] in *; lra.
  - cbn [SF2Q] in *. rewrite !inject_Z_cond_Zopp in *.
    destruct sy; cbn [negb Qsigned] in *; lra.
  - cbn [SF2Q] in *. lra.
  - set (ez := Z.min ex ey).
    assert (Ev : (inject_Z (cond_Zopp sx (Zpos (fst (shl_align mx ex ez)))
                            - cond_Zopp sy (Zpos (fst (shl_align my ey ez)))) * bpow ez
                  == SF2Q (S754_finite sx mx ex) - SF2Q (S754_finite sy my ey))%Q).
    { cbn [SF2Q]. rewrite !shl_align_fst by (unfold ez; lia).
      rewrite (bpow_split ex ez), (bpow_split ey ez) by (unfold ez; lia).
      unfold Z.sub at 1. rewrite inject_Z_plus, inject_Z_opp, !inject_Z_cond_Zopp, !inject_Z_mult.
      destruct sx, sy; cbn [Qsigned]; ring. }
    rewrite <- Ev in H0, Hv. pose proof (bpow_pos ez) as Hb.
    destruct (cond_Zopp sx (Zpos (fst (shl_align mx ex ez)))
              - cond_Zopp sy (Zpos (fst (shl_align my ey ez)))) as [|p|p];
      cbn [binary_normalize].
    + cbn [SF2Q]. lra.
    + destruct (round_rounded false p ez) as (m' & Hr & ->).
      now apply rounded_pack_upper.
    + exfalso.
      assert (inject_Z (Zneg p) < 0)%Q by (change 0%Q with (inject_Z 0); rewrite <- Zlt_Qlt; lia).
      revert H0 H Hb. generalize (inject_Z (Zneg p)) (bpow ez). intros a b ? ? ?. nra.
Qed.

Lemma mul_rounds x y :
  is_finite x = true -> is_finite y = true ->
  (Qabs (F2Q x * F2Q y) <= max_float)%Q ->
  rounds_to (Prim2SF (x * y)) (F2Q x * F2Q y).
Proof.
  intros Fx Fy Hv. rewrite mul_spec.
  apply SFmul_rounds; try assumption; apply Prim2SF_valid.
Qed.

Lemma sub_rounds x y :
  is_finite x = true -> is_finite y = true ->
  (Qabs (F2Q x - F2Q y) <= max_float)%Q ->
  rounds_to (Prim2SF (x - y)) (F2Q x - F2Q y).
Proof.
  intros Fx Fy Hv. rewrite sub_spec.
  apply SFsub_rounds; try assumption; apply Prim2SF_valid.
Qed.

Lemma mul_upper x y f :
  is_finite x = true -> is_finite y = true ->
  (0 <= F2Q x * F2Q y)%Q -> (F2Q x * F2Q y <= F2Q f)%Q ->
  (F2Q (x * y) <= F2Q f)%Q.
Proof.
  intros Fx Fy H0 Hv. unfold F2Q. rewrite mul_spec.
  apply SFmul_upper; try assumption; apply Prim2SF_valid.
Qed.

Lemma sub_upper x y f :
  is_finite x = true -> is_finite y = true ->
  (0 <= F2Q x - F2Q y)%Q -> (F2Q x - F2Q y <= F2Q f)%Q ->
  (F2Q (x - y) <= F2Q f)%Q.
Proof.
  intros Fx Fy H0 Hv. unfold F2Q. rewrite sub_spec.
  apply SFsub_upper; try assumption; apply Prim2SF_valid.
Qed.

Lemma finite_le_max x : (Qabs (F2Q x) <= max_float)%Q.
Proof. apply valid_le_max, Prim2SF_valid. Qed.

(** A finite double is a whole number of units of [2^-1074]. *)
Lemma finite_grid x : (F2Q x == 0)%Q \/ (bpow (-1074) <= Qabs (F2Q x))%Q.
Proof.
  unfold F2Q. pose proof (Prim2SF_valid x) as V.
  destruct (Prim2SF x) as [s|s| |s m e]; cbn [SF2Q]; try (left; reflexivity).
  right. apply valid_finite in V. destruct V as [Hc _].
  rewrite inject_Z_cond_Zopp, Qabs_Qmult, Qabs_Qsigned, (Qabs_pos (bpow e));
    try (apply Qlt_le_weak, bpow_pos);
    try (change 0%Q with (inject_Z 0); rewrite <- Zle_Qle; lia).
  assert (He : -1074 <= e) by (rewrite fexp64_eq in Hc; lia).
  pose proof (bpow_le _ _ He). pose proof (bpow_pos (-1074)).
  assert (1 <= inject_Z (Zpos m))%Q by (change 1%Q with (inject_Z 1); rewrite <- Zle_Qle; lia).
  revert H H0 H1. generalize (inject_Z (Zpos m)) (bpow e) (bpow (-1074)). intros a b c ? ? ?. nra.
Qed.

(** The discount [p - p * rate] of a non-negative price stays between zero
    and the price. *)
Lemma discount_bounds rate p :
  is_finite p = true -> is_finite rate = true ->
  (0 <= F2Q rate <= 1)%Q -> (0 <= F2Q p)%Q ->
  is_finite (p - p * rate) = true /\
  (0 <= F2Q (p - p * rate) <= F2Q p)%Q.
Proof.
  intros Fp Fr [HR0 HR1] HP.
  pose proof (finite_le_max p) as HPmax. rewrite Qabs_pos in HPmax by exact HP.
  assert (Hw : (0 <= F2Q p * F2Q rate <= F2Q p)%Q).
  { revert HR0 HR1 HP. generalize (F2Q p) (F2Q rate). intros P R ? ? ?. nra. }
  destruct (mul_rounds p rate Fp Fr) as (Fq & _ & Sq & _).
  { rewrite Qabs_pos by tauto. lra. }
  specialize (Sq (proj1 Hw)).
  pose proof (mul_upper p rate p Fp Fr (proj1 Hw) (proj2 Hw)) as Uq.
  fold (F2Q (p * rate)) in Sq. fold (is_finite (p * rate)) in Fq.
  destruct (sub_rounds p (p * rate) Fp Fq) as (Fn & _ & Sn & _).
  { rewrite Qabs_pos by lra. lra. }
  fold (F2Q (p - p * rate)) in Sn. fold (is_finite (p - p * rate)) in Fn.
  split; [exact Fn|]. split; [apply Sn; lra|].
  apply sub_upper; try assumption; lra.
Qed.

(** The discount against the exact [p - p * rate]: one rounding for the
    product, one for the difference. *)
Lemma discount_error rate p :
  is_finite p = true -> is_finite rate = true ->
  (0 <= F2Q rate <= 1 # 4)%Q ->
  is_finite (p - p * rate) = true /\
  (Qabs (F2Q (p - p * rate) - (F2Q p - F2Q p * F2Q rate))
   <= (5 # 4) * bpow (-53) * Qabs (F2Q p) + bpow (-1074))%Q.
Proof.
  intros Fp Fr [HR0 HR1].
  pose proof (finite_le_max p) as HPmax.
  pose proof (finite_grid p) as Hgrid.
  assert (Hw : (0 <= F2Q p /\ 0 <= F2Q p * F2Q rate /\ 4 * (F2Q p * F2Q rate) <= F2Q p)%Q \/
               (F2Q p <= 0 /\ F2Q p * F2Q rate <= 0 /\ F2Q p <= 4 * (F2Q p * F2Q rate))%Q).
  { revert HR0 HR1. generalize (F2Q p) (F2Q rate). intros P R ? ?.
    destruct (Qlt_le_dec P 0); [right|left]; nra. }
  destruct (mul_rounds p rate Fp Fr) as (Fq & Eq & Sq1 & Sq2).
  { eapply Qle_trans; [|exact HPmax]. apply Qabs_Qle_condition.
    destruct Hw as [Hw|Hw]; [rewrite (Qabs_pos (F2Q p))|rewrite (Qabs_neg (F2Q p))]; lra. }
  fold (F2Q (p * rate)) in Eq, Sq1, Sq2. fold (is_finite (p * rate)) in Fq.
  revert HPmax Hgrid Hw Eq Sq1 Sq2.
  pose proof (sub_rounds p (p * rate) Fp Fq) as Hsub. revert Hsub.
  unfold rounds_to. fold (F2Q (p - p * rate)). fold (is_finite (p - p * rate)).
  generalize (F2Q (p - p * rate)). generalize (F2Q (p * rate)).
  generalize (F2Q p * F2Q rate)%Q. generalize (F2Q p).
  intros P w q n Hsub HPmax Hgrid Hw Eq Sq1 Sq2.
  assert (Hpq : (Qabs (P - q) <= Qabs P)%Q /\
                ((0 <= P)%Q -> (0 <= P - q)%Q) /\ ((P <= 0)%Q -> (P - q <= 0)%Q)).
  { destruct Hw as [(HP & Hw0 & Hw1)|(HP & Hw0 & Hw1)].
    - specialize (Sq1 Hw0). rewrite (Qabs_pos w) in Eq by exact Hw0.
      apply Qabs_Qle_condition in Eq. rewrite (Qabs_pos P) in * by exact HP.
      destruct Hgrid as [Hz|Hg]; bpow_consts.
      + assert (w == 0)%Q by lra. assert (q == 0)%Q by (specialize (Sq2 ltac:(lra)); lra).
        rewrite Qabs_pos by lra. lra.
      + assert (0 <= P - q)%Q by lra. rewrite Qabs_pos by lra. lra.
    - specialize (Sq2 Hw0). rewrite (Qabs_neg w) in Eq by exact Hw0.
      apply Qabs_Qle_condition in Eq. rewrite (Qabs_neg P) in * by exact HP.
      destruct Hgrid as [Hz|Hg]; bpow_consts.
      + assert (w == 0)%Q by lra. assert (q == 0)%Q by (specialize (Sq1 ltac:(lra)); lra).
        rewrite Qabs_neg by lra. lra.
      + assert (P - q <= 0)%Q by lra. rewrite Qabs_neg by lra. lra. }
  destruct Hpq as (Hpq & Hpq0 & Hpq1).
  destruct Hsub as (Fn & En & _ & _); [lra|].
  split; [exact Fn|].
  apply Qabs_Qle_condition.
  destruct Hw as [(HP & Hw0 & Hw1)|(HP & Hw0 & Hw1)].
  - specialize (Hpq0 HP). rewrite (Qabs_pos (P - q)) in En, Hpq by exact Hpq0.
    rewrite (Qabs_pos w) in Eq by exact Hw0. rewrite (Qabs_pos P) in * by exact HP.
    apply Qabs_Qle_condition in Eq, En. bpow_consts. lra.
  - specialize (Hpq1 HP). rewrite (Qabs_neg (P - q)) in En, Hpq by exact Hpq1.
    rewrite (Qabs_neg w) in Eq by exact Hw0. rewrite (Qabs_neg P) in * by exact HP.
    apply Qabs_Qle_condition in Eq, En. bpow_consts. lra.
Qed.

(** Between canonical mantissas the exponent decides the order. *)
Lemma canonical_exponent_lt m1 e1 m2 e2 :
  fexp64 (digits m1 + e1) = e1 -> fexp64 (digits m2 + e2) = e2 ->
  e1 < e2 ->
  (inject_Z (Zpos m1) * bpow e1 < inject_Z (Zpos m2) * bpow e2)%Q.
Proof.
  intros C1 C2 He. rewrite fexp64_eq in C1, C2.
  pose proof (digits_bounds m1) as [_ H1]. pose proof (digits_bounds m2) as [H2 _].
  pose proof (digits_pos m1). pose proof (digits_pos m2).
  assert (D2 : digits m2 = 53) by lia. rewrite D2 in H2.
  assert (D1 : 2 ^ digits m1 <= 2 ^ 53) by (apply Z.pow_le_mono_r; lia).
  rewrite (bpow_split e2 e1) by lia.
  pose proof (bpow_pos e1) as Hb.
  assert (Hs : 2 <= 2 ^ (e2 - e1)).
  { change 2 with (2 ^ 1) at 1. apply Z.pow_le_mono_r; lia. }
  assert (Hm : Zpos m1 < Zpos m2 * 2 ^ (e2 - e1)).
  { change (2 ^ (53 - 1)) with 4503599627370496 in H2.
    change (2 ^ 53) with 9007199254740992 in D1. nia. }
  rewrite Zlt_Qlt, inject_Z_mult in Hm.
  revert Hm Hb. generalize (inject_Z (Zpos m1)) (inject_Z (Zpos m2)) (inject_Z (2 ^ (e2 - e1))) (bpow e1).
  intros a b c d Hm Hb.
  assert (a * d < b * c * d)%Q by (apply Qmult_lt_compat_r; assumption). lra.
Qed.

(** The order of two positive canonical floats, as [SFcompare] finds it. *)
Lemma canonical_compare m1 e1 m2 e2 :
  fexp64 (digits m1 + e1) = e1 -> fexp64 (digits m2 + e2) = e2 ->
  match (match Z.compare e1 e2 with
         | Lt => Lt
         | Gt => Gt
         | Eq => Pos.compare_cont Eq m1 m2
         end) with
  | Lt => (inject_Z (Zpos m1) * bpow e1 < inject_Z (Zpos m2) * bpow e2)%Q
  | Eq => (inject_Z (Zpos m1) * bpow e1 == inject_Z (Zpos m2) * bpow e2)%Q
  | Gt => (inject_Z (Zpos m2) * bpow e2 < inject_Z (Zpos m1) * bpow e1)%Q
  end.
Proof.
  intros C1 C2. destruct (Z.compare_spec e1 e2) as [->|He|He].
  - change (Pos.compare_cont Eq m1 m2) with (Pos.compare m1 m2).
    pose proof (bpow_pos e2) as Hb.
    destruct (Pos.compare_spec m1 m2) as [->|Hm|Hm].
    + reflexivity.
    + apply Qmult_lt_compat_r; [exact Hb|]. rewrite <- Zlt_Qlt. lia.
    + apply Qmult_lt_compat_r; [exact Hb|]. rewrite <- Zlt_Qlt. lia.
  - now apply canonical_exponent_lt.
  - now apply canonical_exponent_lt.
Qed.

Lemma SFleb_SF2Q x y :
  SpecFloat.valid_binary 53 1024 x = true -> SpecFloat.valid_binary 53 1024 y = true ->
  SFfinite x = true -> SFfinite y = true ->
  (SFleb x y = true <-> (SF2Q x <= SF2Q y)%Q).
Proof.
  intros Vx Vy Fx Fy.
  assert (Hpos : forall m e, (0 < inject_Z (Zpos m) * bpow e)%Q).
  { intros m e. apply Qmult_lt_0_compat; [|apply bpow_pos].
    change 0%Q with (inject_Z 0). rewrite <- Zlt_Qlt. lia. }
  assert (Hneg : forall m e, (inject_Z (- Zpos m) * bpow e == - (inject_Z (Zpos m) * bpow e))%Q).
  { intros m e. rewrite inject_Z_opp. ring. }
  destruct x as [sx|sx| |sx mx ex]; try discriminate Fx;
  destruct y as [sy|sy| |sy my ey]; try discriminate Fy;
    unfold SFleb; cbn [SFcompare SF2Q].
  - split; [intros _; lra|reflexivity].
  - pose proof (Hpos my ey) as Hy.
    destruct sy; cbn [cond_Zopp]; rewrite ?Hneg;
      revert Hy; generalize (inject_Z (Zpos my) * bpow ey)%Q; intros Y Hy;
      (split; [intros E; try discriminate E; lra | intros E; try reflexivity; exfalso; lra]).
  - pose proof (Hpos mx ex) as Hx.
    destruct sx; cbn [cond_Zopp]; rewrite ?Hneg;
      revert Hx; generalize (inject_Z (Zpos mx) * bpow ex)%Q; intros X Hx;
      (split; [intros E; try discriminate E; lra | intros E; try reflexivity; exfalso; lra]).
  - apply valid_finite in Vx, Vy. destruct Vx as [Cx _], Vy as [Cy _].
    pose proof (Hpos mx ex) as Hx. pose proof (Hpos my ey) as Hy.
    pose proof (canonical_compare mx ex my ey Cx Cy) as Hc.
    destruct sx, sy; cbn [cond_Zopp]; rewrite ?Hneg;
      revert Hx Hy Hc;
      generalize (inject_Z (Zpos mx) * bpow ex)%Q (inject_Z (Zpos my) * bpow ey)%Q;
      intros X Y Hx Hy Hc;
      destruct (Z.compare ex ey); try destruct (Pos.compare_cont Eq mx my); cbn [CompOpp];
      (split; [intros E; try discriminate E; lra | intros E; try reflexivity; exfalso; lra]).
Qed.

(** Python's [x <= y] on finite floats is the order of their values. *)
Lemma leb_F2Q x y :
  is_finite x = true -> is_finite y = true ->
  ((x <=? y)%float = true <-> (F2Q x <= F2Q y)%Q).
Proof.
  intros Fx Fy. rewrite leb_spec. apply SFleb_SF2Q; try assumption; apply Prim2SF_valid.
Qed.

End Binary64Facts.

Import Binary64Facts.

(** ** Calls on items *)

Lemma Sobremesa_aplicar_desconto_body :
  Sobremesa.aplicar_desconto = isub_preco 0.15.
Proof. reflexivity. Qed.

Lemma Bebida_aplicar_desconto_body :
  Bebida.aplicar_desconto = isub_preco 0.10.
Proof. reflexivity. Qed.

Lemma Prato_aplicar_desconto_body rate :
  Prato.aplicar_desconto rate = isub_preco rate.
Proof. reflexivity. Qed.

(** On an item whose price is a float the discount returns, storing the
    discounted price. *)
Lemma isub_preco_float rate (self : obj) p :
  self !! "_preco" = Some (VFloat p) ->
  isub_preco rate self = Ok (<["_preco" := VFloat (discounted rate p)]> self, VNone).
Proof.
  intros Hp. unfold isub_preco, getattr. rewrite Hp. reflexivity.
Qed.

(** The discount returns only on an item whose price is a float. *)
Lemma isub_preco_inv rate (self self' : obj) r :
  isub_preco rate self = Ok (self', r) ->
  exists p, self !! "_preco" = Some (VFloat p) /\
    self' = <["_preco" := VFloat (discounted rate p)]> self /\ r = VNone.
Proof.
  unfold isub_preco, getattr.
  destruct (self !! "_preco") as [[|p|s]|] eqn:Hp; cbn; intros H; try discriminate H.
  injection H as <- <-. eauto.
Qed.

(** C5, as the code has it: on every constructed [Sobremesa], [__str__]
    raises [AttributeError] on [_tipo].  The constructor stores [tipo],
    [tamanho] and [descricao]; [__str__] reads [_tipo], [_tamanho] and
    [_descricao], which nothing sets. *)
Theorem Sobremesa_str_raises fmt nome preco tipo tamanho descricao :
  exists self,
    Sobremesa.new nome preco tipo tamanho descricao = Ok self /\
    self !! "_tipo" = None /\
    Sobremesa.__str__ fmt self = Raise (AttributeError "_tipo").
Proof.
  eexists. split; [reflexivity|].
  assert (H : (<["descricao" := descricao]> (<["tamanho" := tamanho]>
               (<["tipo" := tipo]> (<["_preco" := preco]>
               (<["_nome" := nome]> (∅ : obj))))) : obj) !! "_tipo" = None).
  { now rewrite !lookup_insert_ne, lookup_empty by discriminate. }
  split; [exact H|].
  unfold Sobremesa.__str__, getattr, setattr. now rewrite H.
Qed.

(** C8: a discount call that returns returns [None] and leaves every
    attribute other than [_preco] as it was, for the dessert in the sources
    and for the drink and the dish of the spec. *)
Theorem aplicar_desconto_frame (self self' : obj) r :
  Sobremesa.aplicar_desconto self = Ok (self', r) \/
  Bebida.aplicar_desconto self = Ok (self', r) \/
  (exists rate, Prato.aplicar_desconto rate self = Ok (self', r)) ->
  r = VNone /\
  forall name, name <> "_preco" -> self' !! name = self !! name.
Proof.
  intros H.
  assert (exists rate, isub_preco rate self = Ok (self', r)) as [rate Hr].
  { destruct H as [H|[H|[rate H]]]; eauto. }
  apply isub_preco_inv in Hr. destruct Hr as (p & _ & -> & ->).
  split; [reflexivity|]. intros name Hn. now rewrite lookup_insert_ne.
Qed.

Lemma aplicar_desconto_frame_witness :
  Sobremesa.aplicar_desconto pet_gatou
  = Ok (<["_preco" := VFloat 25.415]> pet_gatou, VNone) /\
  (VNone = VNone /\
   forall name, name <> "_preco" ->
     (<["_preco" := VFloat 25.415]> pet_gatou : obj) !! name = pet_gatou !! name).
Proof.
  split; [reflexivity|].
  apply (aplicar_desconto_frame pet_gatou (<["_preco" := VFloat 25.415]> pet_gatou) VNone).
  left. reflexivity.
Defined.

(** C9: the constructor hands [nome] and [preco] to the base-class constructor
    as they are, whatever that constructor is; when it returns, the instance
    gets [tipo], [tamanho] and [descricao] set to the arguments and keeps
    every other attribute the base class left; when it raises, so does the
    constructor. *)
Theorem Sobremesa_init_post
    (super_init : obj -> val -> val -> result obj)
    (self : obj) nome preco tipo tamanho descricao :
  match super_init self nome preco with
  | Ok base =>
      exists self',
        Sobremesa.__init__ super_init self nome preco tipo tamanho descricao
        = Ok self' /\
        self' !! "tipo" = Some tipo /\
        self' !! "tamanho" = Some tamanho /\
        self' !! "descricao" = Some descricao /\
        forall name, name <> "tipo" -> name <> "tamanho" -> name <> "descricao" ->
                     self' !! name = base !! name
  | Raise e =>
      Sobremesa.__init__ super_init self nome preco tipo tamanho descricao = Raise e
  end.
Proof.
  unfold Sobremesa.__init__. destruct (super_init self nome preco) as [base|e]; cbn.
  - eexists. split; [reflexivity|]. unfold setattr.
    repeat split.
    + now rewrite !lookup_insert_ne, lookup_insert_eq by discriminate.
    + now rewrite lookup_insert_ne, lookup_insert_eq by discriminate.
    + now rewrite lookup_insert_eq.
    + intros name H1 H2 H3. now rewrite !lookup_insert_ne by congruence.
  - reflexivity.
Qed.

(** Over the base class of the spec the constructed dessert also carries the
    name and the price it was given. *)
Lemma Sobremesa_new_attrs nome preco tipo tamanho descricao :
  exists self,
    Sobremesa.new nome preco tipo tamanho descricao = Ok self /\
    self !! "_nome" = Some nome /\ self !! "_preco" = Some preco /\
    self !! "tipo" = Some tipo /\ self !! "tamanho" = Some tamanho /\
    self !! "descricao" = Some descricao.
Proof.
  eexists. split; [reflexivity|]. unfold setattr.
  repeat split;
    now rewrite ?lookup_insert_eq, ?(lookup_insert_ne _ "descricao"),
      ?lookup_insert_eq, ?(lookup_insert_ne _ "tamanho"), ?lookup_insert_eq,
      ?(lookup_insert_ne _ "tipo"), ?lookup_insert_eq,
      ?(lookup_insert_ne _ "_preco"), ?lookup_insert_eq by discriminate.
Qed.

(** ** Discounts in binary64 *)

Lemma Qle_compute (a b : Q) : Qle_bool a b = true -> (a <= b)%Q.
Proof. apply Qle_bool_imp_le. Qed.

(** The constants [0.15] and [0.10] are finite, below a quarter, and within
    [2^-55] of the decimal rates. *)
Lemma rate_015 :
  is_finite 0.15 = true /\ (0 <= F2Q 0.15 <= 1 # 4)%Q /\
  (Qabs (F2Q 0.15 - (3 # 20)) <= bpow (-55))%Q.
Proof.
  split; [reflexivity|]. repeat split; apply Qle_compute; vm_compute; reflexivity.
Qed.

Lemma rate_010 :
  is_finite 0.10 = true /\ (0 <= F2Q 0.10 <= 1 # 4)%Q /\
  (Qabs (F2Q 0.10 - (1 # 10)) <= bpow (-55))%Q.
Proof.
  split; [reflexivity|]. repeat split; apply Qle_compute; vm_compute; reflexivity.
Qed.

(** One discount at a rate within [2^-55] of the decimal [r] leaves the price
    within tolerance of [(1 - r) * p]. *)
Lemma discounted_tolerance rate (r : Q) p :
  is_finite p = true -> is_finite rate = true ->
  (0 <= F2Q rate <= 1 # 4)%Q ->
  (Qabs (F2Q rate - r) <= bpow (-55))%Q ->
  within_tolerance (discounted rate p) ((1 - r) * F2Q p) (F2Q p).
Proof.
  intros Fp Fr HR Hr. unfold within_tolerance, discounted.
  destruct (discount_error rate p Fp Fr HR) as (Fn & En).
  split; [exact Fn|].
  assert (Hd : (Qabs (F2Q p * F2Q rate - F2Q p * r) <= bpow (-55) * Qabs (F2Q p))%Q).
  { assert (E : (F2Q p * F2Q rate - F2Q p * r == (F2Q rate - r) * F2Q p)%Q) by ring.
    rewrite E, Qabs_Qmult. apply Qmult_le_compat_r; [exact Hr|apply Qabs_nonneg]. }
  assert (E : (F2Q (p - p * rate) - (1 - r) * F2Q p
               == (F2Q (p - p * rate) - (F2Q p - F2Q p * F2Q rate))
                  - (F2Q p * F2Q rate - F2Q p * r))%Q) by ring.
  rewrite E. clear E.
  eapply Qle_trans; [apply Qabs_triangle|]. rewrite Qabs_opp.
  pose proof (Qabs_nonneg (F2Q p)) as HP.
  revert En Hd HP.
  generalize (Qabs (F2Q (p - p * rate) - (F2Q p - F2Q p * F2Q rate))).
  generalize (Qabs (F2Q p * F2Q rate - F2Q p * r)). generalize (Qabs (F2Q p)).
  intros P d e En Hd HP. bpow_consts. lra.
Qed.

(** A discount at 15% strictly lowers the magnitude of any price that is not
    within a few units of the smallest double. *)
Lemma discounted_015_strict x :
  is_finite x = true ->
  (bpow (-1070) <= Qabs (F2Q x))%Q ->
  (Qabs (F2Q (discounted 0.15 x)) < Qabs (F2Q x))%Q.
Proof.
  intros Fx Hx. destruct rate_015 as (Fr & HR & Hr).
  destruct (discounted_tolerance 0.15 (3 # 20) x Fx Fr HR Hr) as (_ & T).
  revert Hx T. generalize (F2Q (discounted 0.15 x)). generalize (F2Q x).
  intros X y Hx T.
  apply Qabs_Qle_condition in T. apply Qabs_Qlt_condition.
  bpow_consts. qabs_sign X; lra.
Qed.

(** A float equals zero exactly when it is one of the two zeros. *)
Lemma eqb_zero_inv p : (p =? 0)%float = true -> exists s, Prim2SF p = S754_zero s.
Proof.
  rewrite FloatAxioms.eqb_spec. change (Prim2SF 0) with (S754_zero false).
  destruct (Prim2SF p) as [s|s| |s m e]; cbn; intros H; try discriminate H; eauto.
  - destruct s; discriminate H.
  - destruct s; discriminate H.
Qed.

Lemma zero_eqb p s : Prim2SF p = S754_zero s -> (p =? 0)%float = true.
Proof. intros H. rewrite FloatAxioms.eqb_spec, H. reflexivity. Qed.

(** A zero price is a fixed point of every discount at a finite rate. *)
Lemma discounted_zero rate p :
  is_finite rate = true -> (p =? 0)%float = true ->
  (discounted rate p =? 0)%float = true.
Proof.
  intros Fr Hp. destruct (eqb_zero_inv p Hp) as [s Hs].
  unfold discounted, is_finite in *.
  assert (exists s', Prim2SF (p - p * rate) = S754_zero s') as [s' Hs'].
  { rewrite sub_spec, mul_spec, Hs.
    destruct (Prim2SF rate) as [sr|sr| |sr mr er]; try discriminate Fr;
      destruct s, sr; cbn; eauto. }
  exact (zero_eqb _ _ Hs').
Qed.

(** ** Discount properties of the menu items *)

(** C1, as the code has it: one call of [Sobremesa.aplicar_desconto] on a
    dessert with a finite price [p] returns [None] and stores the binary64
    value of [p - p * 0.15], which lies within [2^-52 * |p| + 2^-1074] of
    [0.85 * p]; and the entry script's dessert, built at 29.90, ends at the
    double nearest to 25.415. *)
Theorem Sobremesa_desconto_tolerance :
  (forall (self : obj) p,
     self !! "_preco" = Some (VFloat p) -> is_finite p = true ->
     Sobremesa.aplicar_desconto self
     = Ok (<["_preco" := VFloat (discounted 0.15 p)]> self, VNone) /\
     within_tolerance (discounted 0.15 p) ((17 # 20) * F2Q p) (F2Q p)) /\
  (Sobremesa.new (VStr "Pet Gatou") (VFloat 29.90) (VStr "Doce") (VStr "pequena")
     (VStr "Chocolate belga Amarelo") = Ok pet_gatou /\
   Sobremesa.aplicar_desconto pet_gatou
   = Ok (<["_preco" := VFloat 25.415]> pet_gatou, VNone) /\
   (Qabs (F2Q 25.415 - (25415 # 1000)) <= bpow (-49))%Q).
Proof.
  split.
  - intros self p Hp Fp. split.
    + rewrite Sobremesa_aplicar_desconto_body. now apply isub_preco_float.
    + destruct rate_015 as (Fr & HR & Hr).
      pose proof (discounted_tolerance 0.15 (3 # 20) p Fp Fr HR Hr) as [F T].
      split; [exact F|].
      assert (E : ((17 # 20) * F2Q p == (1 - (3 # 20)) * F2Q p)%Q) by ring.
      rewrite E. exact T.
  - split; [reflexivity|]. split; [reflexivity|].
    apply Qle_compute. vm_compute. reflexivity.
Qed.

Lemma Sobremesa_desconto_tolerance_witness :
  (pet_gatou !! "_preco" = Some (VFloat 29.90) /\ is_finite 29.90%float = true) /\
  (Sobremesa.aplicar_desconto pet_gatou
   = Ok (<["_preco" := VFloat (discounted 0.15 29.90)]> pet_gatou, VNone) /\
   within_tolerance (discounted 0.15 29.90) ((17 # 20) * F2Q 29.90%float)
     (F2Q 29.90%float)).
Proof.
  split; [split; reflexivity|].
  apply (proj1 Sobremesa_desconto_tolerance pet_gatou 29.90%float); reflexivity.
Defined.

(** C1 as stated fails: on a dessert priced 9.0 the call stores 7.65, which is
    neither the double [9.0 * 0.85] (7.6499999999999995) nor exactly 0.85
    times 9. *)
Lemma Sobremesa_desconto_not_exact :
  Sobremesa.new (VStr "Pet Gatou") (VFloat 9) (VStr "Doce") (VStr "pequena")
    (VStr "Chocolate belga Amarelo")
  = Ok (<["_preco" := VFloat 9]> pet_gatou) /\
  Sobremesa.aplicar_desconto (<["_preco" := VFloat 9]> pet_gatou)
  = Ok (<["_preco" := VFloat 7.65]> pet_gatou, VNone) /\
  (7.65 =? 9 * 0.85)%float = false /\
  Qeq_bool (F2Q 7.65) ((17 # 20) * F2Q 9) = false.
Proof.
  split; [reflexivity|]. split; [reflexivity|]. split; vm_compute; reflexivity.
Qed.

(** C2, as the spec's drink has it: one call of the discount on a finite
    price [p] returns [None] and stores the binary64 value of
    [p - p * 0.10], within floating-point tolerance
    ([2^-52 * |p| + 2^-1074]) of [0.90 * p]; and the entry script's drink,
    built at 5.0 with size grande, ends at exactly 4.5. *)
Theorem Bebida_desconto_tolerance :
  (forall (self : obj) p,
     self !! "_preco" = Some (VFloat p) -> is_finite p = true ->
     Bebida.aplicar_desconto self
     = Ok (<["_preco" := VFloat (discounted 0.10 p)]> self, VNone) /\
     within_tolerance (discounted 0.10 p) ((9 # 10) * F2Q p) (F2Q p)) /\
  (Bebida.new (VStr "Suco de Melancia") (VFloat 5.0) (VStr "grande")
   = Ok suco_de_melancia /\
   Bebida.aplicar_desconto suco_de_melancia
   = Ok (<["_preco" := VFloat 4.5]> suco_de_melancia, VNone) /\
   (F2Q 4.5 == 9 # 2)%Q).
Proof.
  split.
  - intros self p Hp Fp. split.
    + rewrite Bebida_aplicar_desconto_body. now apply isub_preco_float.
    + destruct rate_010 as (Fr & HR & Hr).
      pose proof (discounted_tolerance 0.10 (1 # 10) p Fp Fr HR Hr) as [F T].
      split; [exact F|].
      assert (E : ((9 # 10) * F2Q p == (1 - (1 # 10)) * F2Q p)%Q) by ring.
      rewrite E. exact T.
  - split; [reflexivity|]. split; reflexivity.
Qed.

Lemma Bebida_desconto_tolerance_witness :
  (suco_de_melancia !! "_preco" = Some (VFloat 5.0) /\ is_finite 5.0%float = true) /\
  (Bebida.aplicar_desconto suco_de_melancia
   = Ok (<["_preco" := VFloat (discounted 0.10 5.0)]> suco_de_melancia, VNone) /\
   within_tolerance (discounted 0.10 5.0) ((9 # 10) * F2Q 5.0%float) (F2Q 5.0%float)).
Proof.
  split; [split; reflexivity|].
  apply (proj1 Bebida_desconto_tolerance suco_de_melancia 5.0%float); reflexivity.
Defined.

(** C2 as stated fails at an infinite price: the discount stores
    [inf - inf * 0.10], which is NaN, where [inf * 0.90] is [inf]. *)
Lemma Bebida_desconto_infinite :
  Bebida.new (VStr "Suco de Melancia") (VFloat infinity) (VStr "grande")
  = Ok (<["_preco" := VFloat infinity]> suco_de_melancia) /\
  Bebida.aplicar_desconto (<["_preco" := VFloat infinity]> suco_de_melancia)
  = Ok (<["_preco" := VFloat nan]> suco_de_melancia, VNone) /\
  (infinity * 0.90 = infinity)%float /\
  (nan =? infinity * 0.90)%float = false /\
  is_finite nan = false.
Proof. repeat split; reflexivity. Qed.

(** The second call of a discount returns whenever the first did: the stored
    price is again a float, and nothing records that a discount was applied. *)
Lemma isub_preco_again rate (self self1 : obj) r :
  isub_preco rate self = Ok (self1, r) ->
  exists p1, self1 !! "_preco" = Some (VFloat p1) /\
    isub_preco rate self1
    = Ok (<["_preco" := VFloat (discounted rate p1)]> self1, VNone).
Proof.
  intros H. apply isub_preco_inv in H. destruct H as (p & _ & -> & _).
  exists (discounted rate p).
  assert (H : (<["_preco" := VFloat (discounted rate p)]> self : obj) !! "_preco"
              = Some (VFloat (discounted rate p))) by apply lookup_insert_eq.
  split; [exact H|]. now apply isub_preco_float.
Qed.

Lemma repeat_call_twice rate (self : obj) p :
  self !! "_preco" = Some (VFloat p) ->
  repeat_call (isub_preco rate) 2 self
  = Ok (<["_preco" := VFloat (discounted rate (discounted rate p))]> self).
Proof.
  intros Hp. cbn [repeat_call]. rewrite (isub_preco_float rate self p Hp). cbn.
  rewrite (isub_preco_float rate _ (discounted rate p)) by apply lookup_insert_eq. cbn.
  now rewrite insert_insert_eq.
Qed.

Lemma repeat_call_zero rate n (self : obj) p :
  is_finite rate = true ->
  self !! "_preco" = Some (VFloat p) -> (p =? 0)%float = true ->
  exists (self' : obj) p',
    repeat_call (isub_preco rate) n self = Ok self' /\
    self' !! "_preco" = Some (VFloat p') /\ (p' =? 0)%float = true /\
    forall name, name <> "_preco" -> self' !! name = self !! name.
Proof.
  intros Fr. revert self p. induction n as [|n IH]; intros self p Hp Hz.
  - exists self, p. cbn [repeat_call]. auto.
  - cbn [repeat_call]. rewrite (isub_preco_float rate self p Hp). cbn.
    destruct (IH (<["_preco" := VFloat (discounted rate p)]> self) (discounted rate p))
      as (self' & p' & Hrun & Hp' & Hz' & Hframe).
    + apply lookup_insert_eq.
    + now apply discounted_zero.
    + exists self', p'. repeat split; try assumption.
      intros name Hn. rewrite (Hframe name Hn). now rewrite lookup_insert_ne.
Qed.

(** C7: on an item whose price equals zero, any number of discount calls
    return and leave a price equal to zero and every other attribute
    untouched: for the dessert in the sources, and for the drink and the dish
    of the spec at any finite rate. *)
Theorem zero_price_stays_zero
    (method : obj -> result (obj * val)) (n : nat) (self : obj) p :
  method = Sobremesa.aplicar_desconto \/
  method = Bebida.aplicar_desconto \/
  (exists rate, is_finite rate = true /\ method = Prato.aplicar_desconto rate) ->
  self !! "_preco" = Some (VFloat p) -> (p =? 0)%float = true ->
  exists (self' : obj) p',
    repeat_call method n self = Ok self' /\
    self' !! "_preco" = Some (VFloat p') /\ (p' =? 0)%float = true /\
    forall name, name <> "_preco" -> self' !! name = self !! name.
Proof.
  intros Hm Hp Hz.
  assert (exists rate, is_finite rate = true /\ method = isub_preco rate)
    as (rate & Fr & ->).
  { destruct Hm as [->|[->|(rate & Fr & ->)]].
    - exists 0.15%float. split; reflexivity.
    - exists 0.10%float. split; reflexivity.
    - exists rate. split; [exact Fr|reflexivity]. }
  now apply repeat_call_zero with (p := p).
Qed.

Lemma zero_price_stays_zero_witness :
  ((Sobremesa.aplicar_desconto = Sobremesa.aplicar_desconto \/
    Sobremesa.aplicar_desconto = Bebida.aplicar_desconto \/
    (exists rate, is_finite rate = true /\
       Sobremesa.aplicar_desconto = Prato.aplicar_desconto rate)) /\
   (<["_preco" := VFloat 0]> pet_gatou : obj) !! "_preco" = Some (VFloat 0) /\
   (0 =? 0)%float = true) /\
  exists (self' : obj) p',
    repeat_call Sobremesa.aplicar_desconto 3 (<["_preco" := VFloat 0]> pet_gatou)
    = Ok self' /\
    self' !! "_preco" = Some (VFloat p') /\ (p' =? 0)%float = true /\
    forall name, name <> "_preco" ->
      self' !! name = (<["_preco" := VFloat 0]> pet_gatou : obj) !! name.
Proof.
  split; [split; [left; reflexivity|split; reflexivity]|].
  apply (zero_price_stays_zero Sobremesa.aplicar_desconto 3
           (<["_preco" := VFloat 0]> pet_gatou) 0%float);
    [left; reflexivity|reflexivity|reflexivity].
Defined.

(** C10, as the code has it: on a dessert whose price is a finite number with
    [0 <= price], the discount returns and stores a finite price with
    [0 <= new price <= old price], in Python's comparisons and in exact
    value. *)
Theorem Sobremesa_desconto_nonneg (self : obj) p :
  self !! "_preco" = Some (VFloat p) ->
  is_finite p = true -> (0 <=? p)%float = true ->
  Sobremesa.aplicar_desconto self
  = Ok (<["_preco" := VFloat (discounted 0.15 p)]> self, VNone) /\
  is_finite (discounted 0.15 p) = true /\
  (0 <=? discounted 0.15 p)%float = true /\
  (discounted 0.15 p <=? p)%float = true /\
  (0 <= F2Q (discounted 0.15 p) <= F2Q p)%Q.
Proof.
  intros Hp Fp H0. split.
  - rewrite Sobremesa_aplicar_desconto_body. now apply isub_preco_float.
  - destruct rate_015 as (Fr & [HR0 HR1] & _).
    apply (leb_F2Q 0 p eq_refl Fp) in H0. change (F2Q 0) with (0 * bpow 0)%Q in H0.
    assert (H0' : (0 <= F2Q p)%Q) by lra.
    destruct (discount_bounds 0.15 p Fp Fr) as (Fn & Hn0 & Hn1); [split; lra|exact H0'|].
    split; [exact Fn|]. split; [|split; [|split; assumption]].
    + apply (leb_F2Q 0 _ eq_refl Fn). change (F2Q 0) with (0 * bpow 0)%Q. lra.
    + now apply (leb_F2Q _ p Fn Fp).
Qed.

Lemma Sobremesa_desconto_nonneg_witness :
  (pet_gatou !! "_preco" = Some (VFloat 29.90) /\ is_finite 29.90%float = true /\
   (0 <=? 29.90)%float = true) /\
  (Sobremesa.aplicar_desconto pet_gatou
   = Ok (<["_preco" := VFloat (discounted 0.15 29.90)]> pet_gatou, VNone) /\
   is_finite (discounted 0.15 29.90) = true /\
   (0 <=? discounted 0.15 29.90)%float = true /\
   (discounted 0.15 29.90 <=? 29.90)%float = true /\
   (0 <= F2Q (discounted 0.15 29.90) <= F2Q 29.90%float)%Q).
Proof.
  split; [repeat split; reflexivity|].
  apply (Sobremesa_desconto_nonneg pet_gatou 29.90%float); reflexivity.
Defined.

(** C10 as stated fails at an infinite price: [0 <= inf] holds, the discount
    stores [inf - inf * 0.15], which is NaN, and NaN compares with
    nothing. *)
Lemma Sobremesa_desconto_infinite :
  Sobremesa.new (VStr "Pet Gatou") (VFloat infinity) (VStr "Doce") (VStr "pequena")
    (VStr "Chocolate belga Amarelo")
  = Ok (<["_preco" := VFloat infinity]> pet_gatou) /\
  (0 <=? infinity)%float = true /\
  Sobremesa.aplicar_desconto (<["_preco" := VFloat infinity]> pet_gatou)
  = Ok (<["_preco" := VFloat nan]> pet_gatou, VNone) /\
  (0 <=? nan)%float = false /\ (nan <=? infinity)%float = false.
Proof. repeat split; reflexivity. Qed.

(** ** The menu and the entry script *)

Lemma add_all_menu (self : Restaurante.t) (items : list obj) :
  Restaurante.menu (Restaurante.add_all self items)
  = (Restaurante.menu self ++ items)%list.
Proof.
  unfold Restaurante.add_all. revert self.
  induction items as [|item items IH]; intros self; cbn [foldl].
  - now rewrite app_nil_r.
  - rewrite IH. cbn. now rewrite <- app_assoc.
Qed.

(** The script's globals once the module body has run. *)
Lemma module_body_runs prato_rate :
  App1.module_body prato_rate []
  = Ok ({| App1.restaurante_praca :=
             {| Restaurante.location := "praça"; Restaurante.category := "Gourmet";
                Restaurante.menu :=
                  [ <["_preco" := VFloat 4.5]> suco_de_melancia;
                    <["_preco" := VFloat (discounted prato_rate 2.00)]> paozinho;
                    <["_preco" := VFloat 25.415]> pet_gatou ] |};
           App1.bebida_suco := <["_preco" := VFloat 4.5]> suco_de_melancia;
           App1.prato_paozinho :=
             <["_preco" := VFloat (discounted prato_rate 2.00)]> paozinho;
           App1.sobremesa_morango := <["_preco" := VFloat 25.415]> pet_gatou |}, []).
Proof. reflexivity. Qed.

(** C4: a restaurant that starts with an empty menu holds, after adding [N]
    items one by one, exactly those [N] items in the order added; and the
    entry script's restaurant, "praça" of category "Gourmet", ends with the
    drink, the dish and the dessert in that order. *)
Theorem adicionar_no_cardapio_order :
  (forall location category (items : list obj),
     let r := Restaurante.add_all (Restaurante.new location category) items in
     length (Restaurante.menu r) = length items /\
     forall i, Restaurante.menu r !! i = items !! i) /\
  (forall prato_rate,
     exists g,
       App1.module_body prato_rate [] = Ok (g, []) /\
       Restaurante.location (App1.restaurante_praca g) = "praça" /\
       Restaurante.category (App1.restaurante_praca g) = "Gourmet" /\
       length (Restaurante.menu (App1.restaurante_praca g)) = 3%nat /\
       Restaurante.menu (App1.restaurante_praca g)
       = [App1.bebida_suco g; App1.prato_paozinho g; App1.sobremesa_morango g]).
Proof.
  split.
  - intros location category items r. subst r.
    rewrite add_all_menu. cbn [Restaurante.new Restaurante.menu app]. auto.
  - intros prato_rate. eexists. split; [apply module_body_runs|].
    cbn. repeat split; reflexivity.
Qed.

(** Calling the display operation would print one line per menu item. *)
Lemma print_items_output describe (items : list obj) (out : list string) :
  (forall item, item ∈ items -> exists line, describe item = Ok line) ->
  exists lines,
    Restaurante.print_items describe items out = Ok (VNone, (out ++ lines)%list) /\
    length lines = length items.
Proof.
  revert out. induction items as [|item items IH]; intros out Hd.
  - exists []. cbn. now rewrite app_nil_r.
  - destruct (Hd item) as [line Hline]; [left|].
    destruct (IH (out ++ [line])%list) as (lines & Hrun & Hlen).
    { intros item' Hin. apply Hd. now right. }
    exists (line :: lines). split; [|cbn; now rewrite Hlen].
    cbn [Restaurante.print_items]. unfold mbind, io_bind, lift, print. rewrite Hline.
    rewrite <- app_assoc in Hrun. exact Hrun.
Qed.

(** Were the display operation a property, the same access would print the
    menu. *)
Lemma access_property_prints describe (r : Restaurante.t) (out : list string) :
  (forall item, item ∈ Restaurante.menu r -> exists line, describe item = Ok line) ->
  exists lines,
    access Property (Restaurante.exibir_cardapio describe r) out
    = Ok (Some VNone, (out ++ lines)%list) /\
    length lines = length (Restaurante.menu r).
Proof.
  intros Hd. destruct (print_items_output describe _ out Hd) as (lines & Hrun & Hlen).
  exists lines. split; [|exact Hlen].
  unfold access, Restaurante.exibir_cardapio, mbind, io_bind. now rewrite Hrun.
Qed.

(** C6: [main] writes nothing to standard output, whatever was written
    before and whatever the items' descriptions are: it names the display
    operation, a method, and never calls it.  Running the whole script leaves
    standard output empty. *)
Theorem main_prints_nothing :
  (forall describe g out, App1.main describe g out = Ok (VNone, out)) /\
  (forall prato_rate describe, App1.run prato_rate describe [] = Ok (VNone, [])).
Proof.
  split.
  - intros describe g out. reflexivity.
  - intros prato_rate describe. unfold App1.run, mbind, io_bind.
    rewrite module_body_runs. reflexivity.
Qed.

(** * Further properties of the dessert *)

(** ** Magnitudes under rounding *)

Module Binary64Magnitude.

#[local] Open Scope Z_scope.

Lemma SF2Q_nonzero_inv f :
  (0 < Qabs (SF2Q f))%Q -> exists s m e, f = S754_finite s m e.
Proof.
  destruct f as [s|s| |s m e]; cbn [SF2Q];
    try (intros H; exfalso; change (Qabs 0) with 0%Q in H; lra).
  eauto.
Qed.

Lemma Qabs_SF2Q_finite s m e :
  (Qabs (SF2Q (S754_finite s m e)) == inject_Z (Zpos m) * bpow e)%Q.
Proof.
  cbn [SF2Q]. rewrite inject_Z_cond_Zopp, Qabs_Qmult, Qabs_Qsigned, (Qabs_pos (bpow e)).
  - reflexivity.
  - apply Qlt_le_weak, bpow_pos.
  - change 0%Q with (inject_Z 0). rewrite <- Zle_Qle. lia.
Qed.

(** Rounding never passes, in magnitude, a float that bounds the magnitude of
    the exact value. *)
Lemma rounded_pack_magnitude s M E m' f :
  rounded M E m' ->
  SpecFloat.valid_binary 53 1024 f = true ->
  (inject_Z (Zpos M) * bpow E <= Qabs (SF2Q f))%Q ->
  (Qabs (SF2Q (pack s m' (fexp64 (digits M + E)))) <= Qabs (SF2Q f))%Q.
Proof.
  intros Hr Vf Hv. pose proof (bpow_pos E).
  assert (Hpos : (0 < inject_Z (Zpos M) * bpow E)%Q).
  { apply Qmult_lt_0_compat; [|lra]. change 0%Q with (inject_Z 0). rewrite <- Zlt_Qlt. lia. }
  destruct (SF2Q_nonzero_inv f) as (sf & Mp & ep & ->); [lra|].
  pose proof (valid_le_max _ Vf) as Hmax.
  apply valid_finite in Vf. destruct Vf as [Hc He].
  rewrite Qabs_SF2Q_finite in *.
  assert (Hv' : (inject_Z (Zpos M) * bpow E <= max_float)%Q) by lra.
  pose proof (rounded_no_overflow M E m' Hr Hv') as Hno.
  pose proof (rounded_upper M E m' Mp ep Hr Hc Hv) as Hup.
  destruct Hr as (Hb & _).
  destruct (pack_value s m' _ (proj1 Hb) Hno) as (_ & Hval).
  rewrite Hval, Qabs_Qsigned; [exact Hup|].
  apply Qmult_le_0_compat; [|apply Qlt_le_weak, bpow_pos].
  change 0%Q with (inject_Z 0). rewrite <- Zle_Qle. lia.
Qed.

Lemma SFmul_magnitude x y f :
  SpecFloat.valid_binary 53 1024 x = true -> SpecFloat.valid_binary 53 1024 y = true ->
  SpecFloat.valid_binary 53 1024 f = true ->
  SFfinite x = true -> SFfinite y = true ->
  (Qabs (SF2Q x * SF2Q y) <= Qabs (SF2Q f))%Q ->
  (Qabs (SF2Q (SFmul 53 1024 x y)) <= Qabs (SF2Q f))%Q.
Proof.
  intros Vx Vy Vf Fx Fy Hv.
  destruct x as [sx|sx| |sx mx ex]; try discriminate Fx;
  destruct y as [sy|sy| |sy my ey]; try discriminate Fy; cbn [SFmul];
    try (cbn [SF2Q]; apply Qabs_nonneg).
  apply valid_finite in Vx, Vy. destruct Vx as [Cx _], Vy as [Cy _].
  rewrite Qabs_Qmult, !Qabs_SF2Q_finite in Hv.
  assert (Hv' : (inject_Z (Zpos (mx * my)) * bpow (ex + ey) <= Qabs (SF2Q f))%Q).
  { rewrite bpow_add, Pos2Z.inj_mul, inject_Z_mult.
    eapply Qle_trans; [|exact Hv]. apply Qle_lteq. right. ring. }
  destruct (round_aux_rounded (xorb sx sy) (mx * my) (ex + ey)) as (m' & Hr & ->).
  { pose proof (digits_mul mx my). pose proof (digits_pos mx). pose proof (digits_pos my).
    rewrite fexp64_eq in *. lia. }
  now apply rounded_pack_magnitude.
Qed.

Lemma SFsub_magnitude x y f :
  SpecFloat.valid_binary 53 1024 x = true -> SpecFloat.valid_binary 53 1024 y = true ->
  SpecFloat.valid_binary 53 1024 f = true ->
  SFfinite x = true -> SFfinite y = true ->
  (Qabs (SF2Q x - SF2Q y) <= Qabs (SF2Q f))%Q ->
  (Qabs (SF2Q (SFsub 53 1024 x y)) <= Qabs (SF2Q f))%Q.
Proof.
  intros Vx Vy Vf Fx Fy Hv.
  destruct x as [sx|sx| |sx mx ex]; try discriminate Fx;
  destruct y as [sy|sy| |sy my ey]; try discriminate Fy; cbn [SFsub].
  - destruct sx, sy; cbn [SF2Q]; apply Qabs_nonneg.
  - assert (E : (SF2Q (S754_finite (negb sy) my ey)
                 == SF2Q (S754_zero sx) - SF2Q (S754_finite sy my ey))%Q).
    { cbn [SF2Q]. rewrite !inject_Z_cond_Zopp. destruct sy; cbn [negb Qsigned]; ring. }
    rewrite E. exact Hv.
  - assert (E : (SF2Q (S754_finite sx mx ex)
                 == SF2Q (S754_finite sx mx ex) - SF2Q (S754_zero sy))%Q).
    { cbn [SF2Q]. ring. }
    rewrite E. exact Hv.
  - set (ez := Z.min ex ey).
    assert (Ev : (inject_Z (cond_Zopp sx (Zpos (fst (shl_align mx ex ez)))
                            - cond_Zopp sy (Zpos (fst (shl_align my ey ez)))) * bpow ez
                  == SF2Q (S754_finite sx mx ex) - SF2Q (S754_finite sy my ey))%Q).
    { cbn [SF2Q]. rewrite !shl_align_fst by (unfold ez; lia).
      rewrite (bpow_split ex ez), (bpow_split ey ez) by (unfold ez; lia).
      unfold Z.sub at 1. rewrite inject_Z_plus, inject_Z_opp, !inject_Z_cond_Zopp, !inject_Z_mult.
      destruct sx, sy; cbn [Qsigned]; ring. }
    rewrite <- Ev in Hv. pose proof (bpow_pos ez) as Hb.
    rewrite Qabs_Qmult, (Qabs_pos (bpow ez)) in Hv by lra.
    destruct (cond_Zopp sx (Zpos (fst (shl_align mx ex ez)))
              - cond_Zopp sy (Zpos (fst (shl_align my ey ez)))) as [|p|p];
      cbn [binary_normalize].
    + cbn [SF2Q]. apply Qabs_nonneg.
    + destruct (round_rounded false p ez) as (m' & Hr & ->).
      now apply rounded_pack_magnitude.
    + change (Qabs (inject_Z (Zneg p))) with (inject_Z (Zpos p)) in Hv.
      destruct (round_rounded true p ez) as (m' & Hr & ->).
      now apply rounded_pack_magnitude.
Qed.

Lemma mul_magnitude x y f :
  is_finite x = true -> is_finite y = true ->
  (Qabs (F2Q x * F2Q y) <= Qabs (F2Q f))%Q ->
  (Qabs (F2Q (x * y)) <= Qabs (F2Q f))%Q.
Proof.
  intros Fx Fy Hv. unfold F2Q. rewrite mul_spec.
  apply SFmul_magnitude; try assumption; apply Prim2SF_valid.
Qed.

Lemma sub_magnitude x y f :
  is_finite x = true -> is_finite y = true ->
  (Qabs (F2Q x - F2Q y) <= Qabs (F2Q f))%Q ->
  (Qabs (F2Q (x - y)) <= Qabs (F2Q f))%Q.
Proof.
  intros Fx Fy Hv. unfold F2Q. rewrite sub_spec.
  apply SFsub_magnitude; try assumption; apply Prim2SF_valid.
Qed.

(** A discount at a rate between zero and one keeps a finite price finite,
    on its side of zero, and no larger in magnitude. *)
Lemma discount_magnitude rate p :
  is_finite p = true -> is_finite rate = true ->
  (0 <= F2Q rate <= 1)%Q ->
  is_finite (discounted rate p) = true /\
  (Qabs (F2Q (discounted rate p)) <= Qabs (F2Q p))%Q /\
  ((0 <= F2Q p)%Q -> (0 <= F2Q (discounted rate p))%Q) /\
  ((F2Q p <= 0)%Q -> (F2Q (discounted rate p) <= 0)%Q).
Proof.
  intros Fp Fr [HR0 HR1]. unfold discounted.
  pose proof (finite_le_max p) as HPmax.
  assert (Hw : (Qabs (F2Q p * F2Q rate) <= Qabs (F2Q p))%Q).
  { rewrite Qabs_Qmult, (Qabs_pos (F2Q rate)) by exact HR0.
    pose proof (Qabs_nonneg (F2Q p)). revert H HR0 HR1.
    generalize (Qabs (F2Q p)) (F2Q rate). intros a R ? ? ?. nra. }
  assert (Hws : ((0 <= F2Q p)%Q -> (0 <= F2Q p * F2Q rate)%Q) /\
                ((F2Q p <= 0)%Q -> (F2Q p * F2Q rate <= 0)%Q)).
  { revert HR0. generalize (F2Q p) (F2Q rate). intros P R ?. split; intros; nra. }
  destruct (mul_rounds p rate Fp Fr) as (Fq & _ & Sq1 & Sq2); [lra|].
  pose proof (mul_magnitude p rate p Fp Fr Hw) as Mq.
  fold (F2Q (p * rate)) in Sq1, Sq2. fold (is_finite (p * rate)) in Fq.
  assert (Hd : (Qabs (F2Q p - F2Q (p * rate)) <= Qabs (F2Q p))%Q /\
               ((0 <= F2Q p)%Q -> (0 <= F2Q p - F2Q (p * rate))%Q) /\
               ((F2Q p <= 0)%Q -> (F2Q p - F2Q (p * rate) <= 0)%Q)).
  { revert Mq Sq1 Sq2 Hws.
    generalize (F2Q (p * rate)). generalize (F2Q p * F2Q rate)%Q. generalize (F2Q p).
    intros P w q Mq Sq1 Sq2 [Hw1 Hw2].
    destruct (Qlt_le_dec P 0) as [HP|HP].
    - assert (Hq : (q <= 0)%Q) by (apply Sq2, Hw2; lra).
      rewrite (Qabs_neg P), (Qabs_neg q) in Mq by lra.
      split; [|split; intros; lra]. rewrite (Qabs_neg P), Qabs_neg by lra. lra.
    - assert (Hq : (0 <= q)%Q) by (apply Sq1, Hw1; lra).
      rewrite (Qabs_pos P), (Qabs_pos q) in Mq by lra.
      split; [|split; intros; lra]. rewrite (Qabs_pos P), Qabs_pos by lra. lra. }
  destruct Hd as (Hd & Hd1 & Hd2).
  destruct (sub_rounds p (p * rate) Fp Fq) as (Fn & _ & Sn1 & Sn2); [lra|].
  fold (F2Q (p - p * rate)) in Sn1, Sn2. fold (is_finite (p - p * rate)) in Fn.
  split; [exact Fn|]. split; [now apply sub_magnitude|]. split; intros; auto.
Qed.

End Binary64Magnitude.

Import Binary64Magnitude.

(** ** Discounts on any finite price, and repeated *)

(** [n] discount calls store the [n]-fold discount of the price. *)
Lemma repeat_call_iter rate n (self : obj) p :
  self !! "_preco" = Some (VFloat p) ->
  repeat_call (isub_preco rate) n self
  = Ok (<["_preco" := VFloat (Nat.iter n (discounted rate) p)]> self).
Proof.
  revert self p. induction n as [|n IH]; intros self p Hp.
  - cbn [repeat_call Nat.iter]. now rewrite insert_id.
  - rewrite Nat.iter_succ_r. cbn [repeat_call].
    rewrite (isub_preco_float rate self p Hp).
    change (repeat_call (isub_preco rate) n
              (<["_preco" := VFloat (discounted rate p)]> self)
            = Ok (<["_preco" := VFloat (Nat.iter n (discounted rate) (discounted rate p))]> self)).
    rewrite (IH _ (discounted rate p)) by apply lookup_insert_eq.
    now rewrite insert_insert_eq.
Qed.

Lemma iter_discount_magnitude rate p n :
  is_finite p = true -> is_finite rate = true -> (0 <= F2Q rate <= 1)%Q ->
  is_finite (Nat.iter n (discounted rate) p) = true /\
  (Qabs (F2Q (Nat.iter n (discounted rate) p)) <= Qabs (F2Q p))%Q /\
  ((0 <= F2Q p)%Q -> (0 <= F2Q (Nat.iter n (discounted rate) p))%Q) /\
  ((F2Q p <= 0)%Q -> (F2Q (Nat.iter n (discounted rate) p) <= 0)%Q).
Proof.
  intros Fp Fr HR. induction n as [|n (Fn & Mn & Sn1 & Sn2)]; cbn [Nat.iter].
  - split; [exact Fp|]. split; [apply Qle_refl|]. split; auto.
  - destruct (discount_magnitude rate _ Fn Fr HR) as (F' & M' & S1 & S2).
    split; [exact F'|]. split; [eapply Qle_trans; eassumption|]. split; auto.
Qed.

(** On a dessert with a finite price of either sign, the discount returns and
    stores a finite price on the same side of zero and no larger in
    magnitude; a price that is negative or zero ends between itself and
    zero, also in Python's comparisons. *)
Theorem Sobremesa_desconto_toward_zero (self : obj) p :
  self !! "_preco" = Some (VFloat p) -> is_finite p = true ->
  Sobremesa.aplicar_desconto self
  = Ok (<["_preco" := VFloat (discounted 0.15 p)]> self, VNone) /\
  is_finite (discounted 0.15 p) = true /\
  (Qabs (F2Q (discounted 0.15 p)) <= Qabs (F2Q p))%Q /\
  ((0 <= F2Q p)%Q -> (0 <= F2Q (discounted 0.15 p))%Q) /\
  ((p <=? 0)%float = true ->
   (p <=? discounted 0.15 p)%float = true /\
   (discounted 0.15 p <=? 0)%float = true).
Proof.
  intros Hp Fp. split.
  { rewrite Sobremesa_aplicar_desconto_body. now apply isub_preco_float. }
  destruct rate_015 as (Fr & [HR0 HR1] & _).
  destruct (discount_magnitude 0.15 p Fp Fr) as (Fn & Mn & S1 & S2); [split; lra|].
  split; [exact Fn|]. split; [exact Mn|]. split; [exact S1|].
  intros Hneg. apply (leb_F2Q p 0 Fp eq_refl) in Hneg.
  change (F2Q 0) with (0 * bpow 0)%Q in Hneg.
  assert (HP : (F2Q p <= 0)%Q) by lra. specialize (S2 HP).
  rewrite (Qabs_neg (F2Q p)), Qabs_neg in Mn by assumption.
  split.
  - apply (leb_F2Q p _ Fp Fn). lra.
  - apply (leb_F2Q _ 0 Fn eq_refl). change (F2Q 0) with (0 * bpow 0)%Q. lra.
Qed.

Lemma Sobremesa_desconto_toward_zero_witness :
  ((<["_preco" := VFloat (-29.90)]> pet_gatou : obj) !! "_preco" = Some (VFloat (-29.90)) /\
   is_finite (-29.90)%float = true) /\
  (Sobremesa.aplicar_desconto (<["_preco" := VFloat (-29.90)]> pet_gatou)
   = Ok (<["_preco" := VFloat (discounted 0.15 (-29.90))]>
           (<["_preco" := VFloat (-29.90)]> pet_gatou), VNone) /\
   is_finite (discounted 0.15 (-29.90)) = true /\
   (Qabs (F2Q (discounted 0.15 (-29.90))) <= Qabs (F2Q (-29.90)%float))%Q /\
   ((0 <= F2Q (-29.90)%float)%Q -> (0 <= F2Q (discounted 0.15 (-29.90)))%Q) /\
   (((-29.90) <=? 0)%float = true ->
    ((-29.90) <=? discounted 0.15 (-29.90))%float = true /\
    (discounted 0.15 (-29.90) <=? 0)%float = true)).
Proof.
  split; [split; reflexivity|].
  apply (Sobremesa_desconto_toward_zero
           (<["_preco" := VFloat (-29.90)]> pet_gatou) (-29.90)%float); reflexivity.
Defined.

(** On a dessert with a finite price, any number of discount calls all
    return; after [n] of them the price is the [n]-fold discount, finite, on
    the same side of zero as the first price and no larger in magnitude, and
    one more call does not raise its magnitude. *)
Theorem Sobremesa_desconto_repeated (n : nat) (self : obj) p :
  self !! "_preco" = Some (VFloat p) -> is_finite p = true ->
  let pn := Nat.iter n (discounted 0.15) p in
  repeat_call Sobremesa.aplicar_desconto n self
  = Ok (<["_preco" := VFloat pn]> self) /\
  is_finite pn = true /\
  (Qabs (F2Q pn) <= Qabs (F2Q p))%Q /\
  ((0 <= F2Q p)%Q -> (0 <= F2Q pn)%Q) /\
  ((F2Q p <= 0)%Q -> (F2Q pn <= 0)%Q) /\
  (Qabs (F2Q (discounted 0.15 pn)) <= Qabs (F2Q pn))%Q.
Proof.
  intros Hp Fp pn. subst pn.
  destruct rate_015 as (Fr & [HR0 HR1] & _).
  assert (HR : (0 <= F2Q 0.15 <= 1)%Q) by (split; lra).
  split.
  { rewrite Sobremesa_aplicar_desconto_body. now apply repeat_call_iter. }
  destruct (iter_discount_magnitude 0.15 p n Fp Fr HR) as (Fn & Mn & S1 & S2).
  repeat (split; [assumption|]).
  now destruct (discount_magnitude 0.15 _ Fn Fr HR) as (_ & M' & _).
Qed.

Lemma Sobremesa_desconto_repeated_witness :
  (pet_gatou !! "_preco" = Some (VFloat 29.90) /\ is_finite 29.90%float = true) /\
  (repeat_call Sobremesa.aplicar_desconto 3 pet_gatou
   = Ok (<["_preco" := VFloat (Nat.iter 3 (discounted 0.15) 29.90%float)]> pet_gatou) /\
   is_finite (Nat.iter 3 (discounted 0.15) 29.90%float) = true /\
   (Qabs (F2Q (Nat.iter 3 (discounted 0.15) 29.90%float)) <= Qabs (F2Q 29.90%float))%Q /\
   ((0 <= F2Q 29.90%float)%Q -> (0 <= F2Q (Nat.iter 3 (discounted 0.15) 29.90%float))%Q) /\
   ((F2Q 29.90%float <= 0)%Q -> (F2Q (Nat.iter 3 (discounted 0.15) 29.90%float) <= 0)%Q) /\
   (Qabs (F2Q (discounted 0.15 (Nat.iter 3 (discounted 0.15) 29.90%float)))
    <= Qabs (F2Q (Nat.iter 3 (discounted 0.15) 29.90%float)))%Q).
Proof.
  split; [split; reflexivity|].
  apply (Sobremesa_desconto_repeated 3 pet_gatou 29.90%float); reflexivity.
Defined.

(** [n] discounts leave the price within [n] tolerances of [0.85^n] times the
    first price: the rounding errors add up and are not amplified. *)
Theorem Sobremesa_desconto_geometric (n : nat) (self : obj) p :
  self !! "_preco" = Some (VFloat p) -> is_finite p = true ->
  repeat_call Sobremesa.aplicar_desconto n self
  = Ok (<["_preco" := VFloat (Nat.iter n (discounted 0.15) p)]> self) /\
  (Qabs (F2Q (Nat.iter n (discounted 0.15) p) - (17 # 20) ^ Z.of_nat n * F2Q p)
   <= inject_Z (Z.of_nat n) * (bpow (-52) * Qabs (F2Q p) + bpow (-1074)))%Q.
Proof.
  intros Hp Fp. split.
  { rewrite Sobremesa_aplicar_desconto_body. now apply repeat_call_iter. }
  destruct rate_015 as (Fr & HR & Hr).
  assert (HR1 : (0 <= F2Q 0.15 <= 1)%Q) by (destruct HR; split; lra).
  induction n as [|n IH].
  - change (Z.of_nat 0) with 0%Z. cbn [Nat.iter].
    change ((17 # 20) ^ 0)%Q with 1%Q. change (inject_Z 0) with 0%Q.
    assert (E : (F2Q p - 1 * F2Q p == 0)%Q) by ring. rewrite E, Qmult_0_l.
    apply Qle_refl.
  - destruct (iter_discount_magnitude 0.15 p n Fp Fr HR1) as (Fn & Mn & _).
    destruct (discounted_tolerance 0.15 (3 # 20) _ Fn Fr HR Hr) as (_ & T).
    rewrite Nat.iter_succ, Nat2Z.inj_succ. unfold Z.succ.
    rewrite Qpower_plus by (intros H; discriminate H). rewrite inject_Z_plus.
    change ((17 # 20) ^ 1)%Q with (17 # 20)%Q. change (inject_Z 1) with 1%Q.
    assert (HN : (0 <= inject_Z (Z.of_nat n))%Q)
      by (change 0%Q with (inject_Z 0); rewrite <- Zle_Qle; lia).
    assert (Hd : (0 <= bpow (-52) * Qabs (F2Q p) + bpow (-1074))%Q).
    { pose proof (bpow_pos (-52)). pose proof (bpow_pos (-1074)).
      pose proof (Qabs_nonneg (F2Q p)).
      assert (0 <= bpow (-52) * Qabs (F2Q p))%Q
        by (apply Qmult_le_0_compat; [apply Qlt_le_weak|]; assumption).
      lra. }
    assert (HD := Qmult_le_0_compat _ _ HN Hd).
    assert (T' : (Qabs (F2Q (discounted 0.15 (Nat.iter n (discounted 0.15) p))
                        - (1 - (3 # 20)) * F2Q (Nat.iter n (discounted 0.15) p))
                  <= bpow (-52) * Qabs (F2Q p) + bpow (-1074))%Q).
    { eapply Qle_trans; [exact T|]. apply Qplus_le_l.
      rewrite !(Qmult_comm (bpow (-52))).
      apply Qmult_le_compat_r; [exact Mn|apply Qlt_le_weak, bpow_pos]. }
    assert (Eg : ((inject_Z (Z.of_nat n) + 1) * (bpow (-52) * Qabs (F2Q p) + bpow (-1074))
                  == inject_Z (Z.of_nat n) * (bpow (-52) * Qabs (F2Q p) + bpow (-1074))
                     + (bpow (-52) * Qabs (F2Q p) + bpow (-1074)))%Q) by ring.
    rewrite Eg.
    assert (Et : ((17 # 20) ^ Z.of_nat n * (17 # 20) * F2Q p
                  == (17 # 20) * ((17 # 20) ^ Z.of_nat n * F2Q p))%Q) by ring.
    rewrite Et.
    clear Eg Et T Mn HN.
    revert IH T' HD Hd.
    generalize (inject_Z (Z.of_nat n) * (bpow (-52) * Qabs (F2Q p) + bpow (-1074)))%Q.
    generalize (bpow (-52) * Qabs (F2Q p) + bpow (-1074))%Q.
    generalize (F2Q (discounted 0.15 (Nat.iter n (discounted 0.15) p))).
    generalize (F2Q (Nat.iter n (discounted 0.15) p)).
    generalize ((17 # 20) ^ Z.of_nat n * F2Q p)%Q.
    intros t x y d D IH T' HD Hd.
    apply Qabs_Qle_condition in IH. apply Qabs_Qle_condition in T'.
    apply Qabs_Qle_condition. lra.
Qed.

Lemma Sobremesa_desconto_geometric_witness :
  (pet_gatou !! "_preco" = Some (VFloat 29.90) /\ is_finite 29.90%float = true) /\
  (repeat_call Sobremesa.aplicar_desconto 2 pet_gatou
   = Ok (<["_preco" := VFloat (Nat.iter 2 (discounted 0.15) 29.90%float)]> pet_gatou) /\
   (Qabs (F2Q (Nat.iter 2 (discounted 0.15) 29.90%float)
          - (17 # 20) ^ Z.of_nat 2 * F2Q 29.90%float)
    <= inject_Z (Z.of_nat 2) * (bpow (-52) * Qabs (F2Q 29.90%float) + bpow (-1074)))%Q).
Proof.
  split; [split; reflexivity|].
  apply (Sobremesa_desconto_geometric 2 pet_gatou 29.90%float); reflexivity.
Defined.

(** ** Prices that are not numbers *)

(** An infinite or NaN price turns into NaN: [inf - inf * 0.15] is
    [inf - inf]. *)
Lemma discounted_nonfinite p :
  is_finite p = false -> Prim2SF (discounted 0.15 p) = S754_nan.
Proof.
  unfold is_finite, discounted. intros H. rewrite sub_spec, mul_spec.
  destruct (Prim2SF p) as [s|s| |s m e]; try discriminate H.
  - destruct s; vm_compute; reflexivity.
  - vm_compute; reflexivity.
Qed.

Lemma iter_discounted_nonfinite p n :
  is_finite p = false -> Prim2SF (Nat.iter (S n) (discounted 0.15) p) = S754_nan.
Proof.
  intros H. induction n as [|n IH].
  - now apply discounted_nonfinite.
  - rewrite Nat.iter_succ. apply discounted_nonfinite.
    unfold is_finite. now rewrite IH.
Qed.

(** On a dessert whose price is an infinity or NaN every discount call
    returns, and from the first call on the stored price is NaN: it compares
    unequal to itself. *)
Theorem Sobremesa_desconto_nonfinite (n : nat) (self : obj) p :
  self !! "_preco" = Some (VFloat p) -> is_finite p = false ->
  let pn := Nat.iter (S n) (discounted 0.15) p in
  repeat_call Sobremesa.aplicar_desconto (S n) self
  = Ok (<["_preco" := VFloat pn]> self) /\
  Prim2SF pn = S754_nan /\
  (pn =? pn)%float = false.
Proof.
  intros Hp Fp pn. subst pn. split.
  { rewrite Sobremesa_aplicar_desconto_body. now apply repeat_call_iter. }
  pose proof (iter_discounted_nonfinite p n Fp) as H.
  split; [exact H|]. now rewrite FloatAxioms.eqb_spec, H.
Qed.

Lemma Sobremesa_desconto_nonfinite_witness :
  ((<["_preco" := VFloat neg_infinity]> pet_gatou : obj) !! "_preco"
   = Some (VFloat neg_infinity) /\
   is_finite neg_infinity = false) /\
  (repeat_call Sobremesa.aplicar_desconto 2 (<["_preco" := VFloat neg_infinity]> pet_gatou)
   = Ok (<["_preco" := VFloat (Nat.iter 2 (discounted 0.15) neg_infinity)]>
           (<["_preco" := VFloat neg_infinity]> pet_gatou)) /\
   Prim2SF (Nat.iter 2 (discounted 0.15) neg_infinity) = S754_nan /\
   (Nat.iter 2 (discounted 0.15) neg_infinity
    =? Nat.iter 2 (discounted 0.15) neg_infinity)%float = false).
Proof.
  split; [split; reflexivity|].
  apply (Sobremesa_desconto_nonfinite 1 (<["_preco" := VFloat neg_infinity]> pet_gatou)
           neg_infinity); reflexivity.
Defined.

(** ** Prices the discount leaves unchanged *)

Module Binary64Order.

#[local] Open Scope Z_scope.

Lemma SFeqb_SF2Q x y :
  SpecFloat.valid_binary 53 1024 x = true -> SpecFloat.valid_binary 53 1024 y = true ->
  SFfinite x = true -> SFfinite y = true ->
  (SFeqb x y = true <-> (SF2Q x == SF2Q y)%Q).
Proof.
  intros Vx Vy Fx Fy.
  assert (Hpos : forall m e, (0 < inject_Z (Zpos m) * bpow e)%Q).
  { intros m e. apply Qmult_lt_0_compat; [|apply bpow_pos].
    change 0%Q with (inject_Z 0). rewrite <- Zlt_Qlt. lia. }
  assert (Hneg : forall m e, (inject_Z (- Zpos m) * bpow e == - (inject_Z (Zpos m) * bpow e))%Q).
  { intros m e. rewrite inject_Z_opp. ring. }
  destruct x as [sx|sx| |sx mx ex]; try discriminate Fx;
  destruct y as [sy|sy| |sy my ey]; try discriminate Fy;
    unfold SFeqb; cbn [SFcompare SF2Q].
  - split; [intros _; lra|reflexivity].
  - pose proof (Hpos my ey) as Hy.
    destruct sy; cbn [cond_Zopp]; rewrite ?Hneg;
      revert Hy; generalize (inject_Z (Zpos my) * bpow ey)%Q; intros Y Hy;
      (split; [intros E; try discriminate E; lra | intros E; try reflexivity; exfalso; lra]).
  - pose proof (Hpos mx ex) as Hx.
    destruct sx; cbn [cond_Zopp]; rewrite ?Hneg;
      revert Hx; generalize (inject_Z (Zpos mx) * bpow ex)%Q; intros X Hx;
      (split; [intros E; try discriminate E; lra | intros E; try reflexivity; exfalso; lra]).
  - apply valid_finite in Vx, Vy. destruct Vx as [Cx _], Vy as [Cy _].
    pose proof (Hpos mx ex) as Hx. pose proof (Hpos my ey) as Hy.
    pose proof (canonical_compare mx ex my ey Cx Cy) as Hc.
    destruct sx, sy; cbn [cond_Zopp]; rewrite ?Hneg;
      revert Hx Hy Hc;
      generalize (inject_Z (Zpos mx) * bpow ex)%Q (inject_Z (Zpos my) * bpow ey)%Q;
      intros X Y Hx Hy Hc;
      destruct (Z.compare ex ey); try destruct (Pos.compare_cont Eq mx my); cbn [CompOpp];
      (split; [intros E; try discriminate E; lra | intros E; try reflexivity; exfalso; lra]).
Qed.

(** Python's [x == y] on finite floats is the equality of their values. *)
Lemma eqb_F2Q x y :
  is_finite x = true -> is_finite y = true ->
  ((x =? y)%float = true <-> (F2Q x == F2Q y)%Q).
Proof.
  intros Fx Fy. rewrite FloatAxioms.eqb_spec.
  apply SFeqb_SF2Q; try assumption; apply Prim2SF_valid.
Qed.

(** A finite double below [2^-1070] in magnitude is a zero or one of the
    fifteen smallest subnormals of either sign. *)
Lemma small_magnitude_inv p :
  is_finite p = true -> (Qabs (F2Q p) < bpow (-1070))%Q ->
  (exists s, Prim2SF p = S754_zero s) \/
  (exists s m, Zpos m < 16 /\ Prim2SF p = S754_finite s m (-1074)).
Proof.
  unfold is_finite, F2Q. pose proof (Prim2SF_valid p) as V.
  destruct (Prim2SF p) as [s|s| |s m e]; intros Fp H; try discriminate Fp.
  - left; eauto.
  - right. exists s, m. apply valid_finite in V. destruct V as [C _].
    rewrite Qabs_SF2Q_finite in H. rewrite fexp64_eq in C.
    assert (He : -1074 <= e) by lia.
    assert (Hm : Zpos m < 16).
    { destruct (Z_lt_le_dec (Zpos m) 16) as [|Hge]; [assumption|exfalso].
      rewrite (bpow_split (-1070) (-1074)) in H by lia.
      change (2 ^ (-1070 - -1074)) with 16 in H.
      pose proof (bpow_le _ _ He) as Hb. pose proof (bpow_pos (-1074)) as Hp.
      assert (Hi : (inject_Z 16 <= inject_Z (Zpos m))%Q) by (rewrite <- Zle_Qle; lia).
      change (inject_Z 16) with 16%Q in *.
      revert H Hb Hp Hi.
      generalize (inject_Z (Zpos m)) (bpow e) (bpow (-1074)). intros a b c ? ? ? ?. nra. }
    split; [exact Hm|].
    pose proof (digits_bounds m) as [Hlo _].
    assert (digits m <= 4).
    { destruct (Z_le_gt_dec (digits m) 4) as [|Hgt]; [assumption|exfalso].
      assert (2 ^ 4 <= 2 ^ (digits m - 1)) by (apply Z.pow_le_mono_r; lia).
      change (2 ^ 4) with 16 in *. lia. }
    f_equal. lia.
Qed.

End Binary64Order.

Import Binary64Order.

(** The discount leaves a finite price unchanged exactly when its magnitude
    is at most [3 * 2^-1074]. *)
Lemma discounted_015_unchanged_iff p :
  is_finite p = true ->
  ((discounted 0.15 p =? p)%float = true <->
   (Qabs (F2Q p) <= 3 * bpow (-1074))%Q).
Proof.
  intros Fp. destruct (Qlt_le_dec (Qabs (F2Q p)) (bpow (-1070))) as [Hs|Hl].
  - destruct (small_magnitude_inv p Fp Hs) as [[s E]|(s & m & Hm & E)];
      rewrite <- (SF2Prim_Prim2SF p), E; clear E.
    2: do 4 (try destruct m as [m|m|]); try (exfalso; lia).
    all: destruct s;
      (split; intros E;
       [ first [ apply Qle_compute; vm_compute; reflexivity
               | exfalso; vm_compute in E; discriminate E ]
       | first [ vm_compute; reflexivity
               | exfalso; apply Qle_bool_iff in E; vm_compute in E; discriminate E ] ]).
  - destruct rate_015 as (Fr & [HR0 HR1] & _).
    destruct (discount_magnitude 0.15 p Fp Fr) as (Fn & _); [split; lra|].
    pose proof (discounted_015_strict p Fp Hl) as Hlt.
    split; intros E; exfalso.
    + apply (eqb_F2Q _ _ Fn Fp) in E. rewrite E in Hlt. lra.
    + revert Hl E. generalize (Qabs (F2Q p)). intros a Hl E. bpow_consts. lra.
Qed.

(** On a dessert with a finite price the discount call returns, and the
    stored price equals the old one, in Python's [==], exactly when the old
    price is at most [3 * 2^-1074] in magnitude: a zero or one of the three
    smallest doubles of either sign.  Every other finite price changes. *)
Theorem Sobremesa_desconto_unchanged_iff (self : obj) p :
  self !! "_preco" = Some (VFloat p) -> is_finite p = true ->
  Sobremesa.aplicar_desconto self
  = Ok (<["_preco" := VFloat (discounted 0.15 p)]> self, VNone) /\
  ((discounted 0.15 p =? p)%float = true <->
   (Qabs (F2Q p) <= 3 * bpow (-1074))%Q).
Proof.
  intros Hp Fp. split.
  - rewrite Sobremesa_aplicar_desconto_body. now apply isub_preco_float.
  - now apply discounted_015_unchanged_iff.
Qed.

Lemma Sobremesa_desconto_unchanged_iff_witness :
  (pet_gatou !! "_preco" = Some (VFloat 29.90) /\ is_finite 29.90%float = true) /\
  (Sobremesa.aplicar_desconto pet_gatou
   = Ok (<["_preco" := VFloat (discounted 0.15 29.90)]> pet_gatou, VNone) /\
   ((discounted 0.15 29.90 =? 29.90)%float = true <->
    (Qabs (F2Q 29.90%float) <= 3 * bpow (-1074))%Q)).
Proof.
  split; [split; reflexivity|].
  apply (Sobremesa_desconto_unchanged_iff pet_gatou 29.90%float); reflexivity.
Defined.

(** ** The text of a dessert *)

(** [__str__] returns exactly on an instance that has [_tipo], [_tamanho]
    and [_descricao]; otherwise it raises [AttributeError] on the first of
    the three, in that order, that is missing, and it raises nothing else. *)
Theorem Sobremesa_str_outcome fmt (self : obj) :
  ((exists s, Sobremesa.__str__ fmt self = Ok s) <->
   is_Some (self !! "_tipo") /\ is_Some (self !! "_tamanho") /\
   is_Some (self !! "_descricao")) /\
  (forall e, Sobremesa.__str__ fmt self = Raise e ->
     (e = AttributeError "_tipo" /\ self !! "_tipo" = None) \/
     (e = AttributeError "_tamanho" /\ is_Some (self !! "_tipo") /\
      self !! "_tamanho" = None) \/
     (e = AttributeError "_descricao" /\ is_Some (self !! "_tipo") /\
      is_Some (self !! "_tamanho") /\ self !! "_descricao" = None)).
Proof.
  unfold Sobremesa.__str__, getattr.
  destruct (self !! "_tipo") as [a|]; cbn;
    [destruct (self !! "_tamanho") as [b|]; cbn;
       [destruct (self !! "_descricao") as [c|]; cbn|]|].
  all: split;
    [ split;
      [ intros [s H]; try discriminate H; repeat split; eauto
      | intros (H1 & H2 & H3); eauto;
        try (destruct H1 as [? H1]; discriminate H1);
        try (destruct H2 as [? H2]; discriminate H2);
        try (destruct H3 as [? H3]; discriminate H3) ]
    | intros e H; try discriminate H; injection H as <-; eauto 10 ].
Qed.

(** [__str__] reads no attribute other than [_tipo], [_tamanho] and
    [_descricao]. *)
Lemma Sobremesa_str_setattr fmt (self : obj) name v :
  name <> "_tipo" -> name <> "_tamanho" -> name <> "_descricao" ->
  Sobremesa.__str__ fmt (setattr self name v) = Sobremesa.__str__ fmt self.
Proof.
  intros H1 H2 H3. unfold Sobremesa.__str__, getattr, setattr.
  now rewrite !lookup_insert_ne by congruence.
Qed.

(** A discount call that returns does not change what [__str__] gives, value
    or exception. *)
Theorem Sobremesa_str_after_desconto fmt (self self' : obj) r :
  Sobremesa.aplicar_desconto self = Ok (self', r) ->
  Sobremesa.__str__ fmt self' = Sobremesa.__str__ fmt self.
Proof.
  rewrite Sobremesa_aplicar_desconto_body. intros H.
  apply isub_preco_inv in H. destruct H as (p & _ & -> & _).
  apply (Sobremesa_str_setattr fmt self "_preco"); discriminate.
Qed.

Lemma Sobremesa_str_after_desconto_witness :
  Sobremesa.aplicar_desconto (<["_tipo" := VStr "Doce"]> pet_gatou)
  = Ok (<["_preco" := VFloat 25.415]> (<["_tipo" := VStr "Doce"]> pet_gatou), VNone) /\
  Sobremesa.__str__ (fun _ => "x")
    (<["_preco" := VFloat 25.415]> (<["_tipo" := VStr "Doce"]> pet_gatou))
  = Sobremesa.__str__ (fun _ => "x") (<["_tipo" := VStr "Doce"]> pet_gatou).
Proof.
  split; [reflexivity|].
  apply (Sobremesa_str_after_desconto (fun _ => "x") (<["_tipo" := VStr "Doce"]> pet_gatou)
           (<["_preco" := VFloat 25.415]> (<["_tipo" := VStr "Doce"]> pet_gatou)) VNone).
  reflexivity.
Defined.

(** What [__str__] gives on a constructed dessert is what it gives on the
    instance as the base-class constructor left it: the [tipo], [tamanho] and
    [descricao] handed to the constructor never reach the text. *)
Theorem Sobremesa_str_after_init fmt
    (super_init : obj -> val -> val -> result obj)
    (self base : obj) nome preco tipo tamanho descricao :
  super_init self nome preco = Ok base ->
  exists item,
    Sobremesa.__init__ super_init self nome preco tipo tamanho descricao = Ok item /\
    Sobremesa.__str__ fmt item = Sobremesa.__str__ fmt base /\
    forall tipo' tamanho' descricao' item',
      Sobremesa.__init__ super_init self nome preco tipo' tamanho' descricao' = Ok item' ->
      Sobremesa.__str__ fmt item' = Sobremesa.__str__ fmt item.
Proof.
  intros Hb. unfold Sobremesa.__init__. rewrite Hb. cbn.
  assert (E : forall a b c,
    Sobremesa.__str__ fmt
      (setattr (setattr (setattr base "tipo" a) "tamanho" b) "descricao" c)
    = Sobremesa.__str__ fmt base).
  { intros a b c. now rewrite !Sobremesa_str_setattr by discriminate. }
  eexists. split; [reflexivity|]. split; [apply E|].
  intros a b c item' H. injection H as <-. now rewrite !E.
Qed.

Lemma Sobremesa_str_after_init_witness :
  ItemCardapio.__init__ ∅ (VStr "Pet Gatou") (VFloat 29.90)
  = Ok (<["_preco" := VFloat 29.90]> (<["_nome" := VStr "Pet Gatou"]> ∅)) /\
  exists item,
    Sobremesa.__init__ ItemCardapio.__init__ ∅ (VStr "Pet Gatou") (VFloat 29.90)
      (VStr "Doce") (VStr "pequena") (VStr "Chocolate belga Amarelo") = Ok item /\
    Sobremesa.__str__ (fun _ => "x") item
    = Sobremesa.__str__ (fun _ => "x")
        (<["_preco" := VFloat 29.90]> (<["_nome" := VStr "Pet Gatou"]> ∅)) /\
    forall tipo' tamanho' descricao' item',
      Sobremesa.__init__ ItemCardapio.__init__ ∅ (VStr "Pet Gatou") (VFloat 29.90)
        tipo' tamanho' descricao' = Ok item' ->
      Sobremesa.__str__ (fun _ => "x") item' = Sobremesa.__str__ (fun _ => "x") item.
Proof.
  split; [reflexivity|].
  apply (Sobremesa_str_after_init (fun _ => "x") ItemCardapio.__init__ ∅
           (<["_preco" := VFloat 29.90]> (<["_nome" := VStr "Pet Gatou"]> ∅))).
  reflexivity.
Defined.

(** ** Constructing, then discounting *)

(** Whatever the base-class constructor is, when it leaves a float price in
    [_preco] the constructed dessert can be discounted: the call returns
    [None], the price becomes the discounted base price, [tipo], [tamanho]
    and [descricao] still hold the constructor's arguments, and every other
    attribute is as the base class left it. *)
Theorem Sobremesa_init_then_desconto
    (super_init : obj -> val -> val -> result obj)
    (self base : obj) nome preco tipo tamanho descricao p :
  super_init self nome preco = Ok base ->
  base !! "_preco" = Some (VFloat p) ->
  exists item item',
    Sobremesa.__init__ super_init self nome preco tipo tamanho descricao = Ok item /\
    Sobremesa.aplicar_desconto item = Ok (item', VNone) /\
    item' !! "_preco" = Some (VFloat (discounted 0.15 p)) /\
    item' !! "tipo" = Some tipo /\
    item' !! "tamanho" = Some tamanho /\
    item' !! "descricao" = Some descricao /\
    forall name, name <> "_preco" -> name <> "tipo" -> name <> "tamanho" ->
                 name <> "descricao" -> item' !! name = base !! name.
Proof.
  intros Hb Hp. unfold Sobremesa.__init__. rewrite Hb. cbn. unfold setattr.
  eexists. eexists. split; [reflexivity|]. split.
  { rewrite Sobremesa_aplicar_desconto_body. apply (isub_preco_float 0.15 _ p).
    rewrite !lookup_insert_ne by discriminate. exact Hp. }
  split; [apply lookup_insert_eq|].
  split; [now rewrite !lookup_insert_ne, lookup_insert_eq by discriminate|].
  split; [now rewrite !lookup_insert_ne, lookup_insert_eq by discriminate|].
  split; [now rewrite lookup_insert_ne, lookup_insert_eq by discriminate|].
  intros name H1 H2 H3 H4. now rewrite !lookup_insert_ne by congruence.
Qed.

Lemma Sobremesa_init_then_desconto_witness :
  (ItemCardapio.__init__ ∅ (VStr "Pet Gatou") (VFloat 29.90)
   = Ok (<["_preco" := VFloat 29.90]> (<["_nome" := VStr "Pet Gatou"]> ∅)) /\
   (<["_preco" := VFloat 29.90]> (<["_nome" := VStr "Pet Gatou"]> ∅) : obj) !! "_preco"
   = Some (VFloat 29.90)) /\
  exists item item',
    Sobremesa.__init__ ItemCardapio.__init__ ∅ (VStr "Pet Gatou") (VFloat 29.90)
      (VStr "Doce") (VStr "pequena") (VStr "Chocolate belga Amarelo") = Ok item /\
    Sobremesa.aplicar_desconto item = Ok (item', VNone) /\
    item' !! "_preco" = Some (VFloat (discounted 0.15 29.90)) /\
    item' !! "tipo" = Some (VStr "Doce") /\
    item' !! "tamanho" = Some (VStr "pequena") /\
    item' !! "descricao" = Some (VStr "Chocolate belga Amarelo") /\
    forall name, name <> "_preco" -> name <> "tipo" -> name <> "tamanho" ->
                 name <> "descricao" ->
                 item' !! name
                 = (<["_preco" := VFloat 29.90]> (<["_nome" := VStr "Pet Gatou"]> ∅) : obj)
                     !! name.
Proof.
  split; [split; reflexivity|].
  apply (Sobremesa_init_then_desconto ItemCardapio.__init__ ∅
           (<["_preco" := VFloat 29.90]> (<["_nome" := VStr "Pet Gatou"]> ∅))
           (VStr "Pet Gatou") (VFloat 29.90) (VStr "Doce") (VStr "pequena")
           (VStr "Chocolate belga Amarelo") 29.90%float); reflexivity.
Defined.

(** ** Where repeated discounts end *)

Module Binary64Grid.

#[local] Open Scope Z_scope.

(** Every finite double is a whole number of units of [2^-1074]. *)
Lemma finite_units p :
  is_finite p = true ->
  exists k, 0 <= k /\ (Qabs (F2Q p) == inject_Z k * bpow (-1074))%Q.
Proof.
  unfold is_finite, F2Q. pose proof (Prim2SF_valid p) as V.
  destruct (Prim2SF p) as [s|s| |s m e]; intros Fp; try discriminate Fp.
  - exists 0. split; [lia|]. cbn [SF2Q]. change (Qabs 0) with 0%Q.
    change (inject_Z 0) with 0%Q. ring.
  - apply valid_finite in V. destruct V as [C _]. rewrite fexp64_eq in C.
    exists (Zpos m * 2 ^ (e - -1074)). split; [apply Z.mul_nonneg_nonneg; lia|].
    rewrite Qabs_SF2Q_finite, (bpow_split e (-1074)) by lia.
    rewrite inject_Z_mult. ring.
Qed.

(** Above [3 * 2^-1074] the discount lowers the magnitude of the price. *)
Lemma discounted_015_lowers p :
  is_finite p = true ->
  (3 * bpow (-1074) < Qabs (F2Q p))%Q ->
  (Qabs (F2Q (discounted 0.15 p)) < Qabs (F2Q p))%Q.
Proof.
  intros Fp H. destruct rate_015 as (Fr & [HR0 HR1] & _).
  destruct (discount_magnitude 0.15 p Fp Fr) as (Fn & M & S1 & S2); [split; lra|].
  destruct (Qlt_le_dec (Qabs (F2Q (discounted 0.15 p))) (Qabs (F2Q p))) as [|Hge];
    [assumption|exfalso].
  assert (E : (F2Q (discounted 0.15 p) == F2Q p)%Q).
  { revert M Hge S1 S2. generalize (F2Q (discounted 0.15 p)) (F2Q p).
    intros a b M Hge S1 S2. destruct (Qlt_le_dec b 0).
    - assert (a <= 0)%Q by (apply S2; lra).
      rewrite (Qabs_neg a), (Qabs_neg b) in * by lra. lra.
    - assert (0 <= a)%Q by (apply S1; lra).
      rewrite (Qabs_pos a), (Qabs_pos b) in * by lra. lra. }
  apply (eqb_F2Q _ _ Fn Fp) in E.
  apply (discounted_015_unchanged_iff p Fp) in E. lra.
Qed.

(** At or below [3 * 2^-1074] the price keeps its value under any number of
    further discounts. *)
Lemma discounted_015_stays p k :
  is_finite p = true ->
  (Qabs (F2Q p) <= 3 * bpow (-1074))%Q ->
  is_finite (Nat.iter k (discounted 0.15) p) = true /\
  (F2Q (Nat.iter k (discounted 0.15) p) == F2Q p)%Q.
Proof.
  intros Fp H. destruct rate_015 as (Fr & [HR0 HR1] & _).
  induction k as [|k [Fk Ek]].
  - split; [exact Fp|reflexivity].
  - rewrite Nat.iter_succ.
    destruct (discount_magnitude 0.15 _ Fk Fr) as (Fn & _); [split; lra|].
    split; [exact Fn|]. rewrite <- Ek.
    apply (eqb_F2Q _ _ Fn Fk). apply (discounted_015_unchanged_iff _ Fk).
    now rewrite Ek.
Qed.

Lemma discount_settles_units k :
  0 <= k -> forall p,
  is_finite p = true ->
  (Qabs (F2Q p) == inject_Z k * bpow (-1074))%Q ->
  exists n, (Qabs (F2Q (Nat.iter n (discounted 0.15) p)) <= 3 * bpow (-1074))%Q.
Proof.
  intros Hk. pattern k. apply (Z_lt_induction _ ); [|exact Hk]. clear k Hk.
  intros k IH p Fp Hp.
  destruct (Qlt_le_dec (3 * bpow (-1074)) (Qabs (F2Q p))) as [Hgt|Hle].
  - pose proof (discounted_015_lowers p Fp Hgt) as Hlt.
    destruct rate_015 as (Fr & [HR0 HR1] & _).
    destruct (discount_magnitude 0.15 p Fp Fr) as (Fn & _); [split; lra|].
    destruct (finite_units _ Fn) as (k' & Hk' & Hp').
    assert (Hkk : k' < k).
    { rewrite Hp, Hp' in Hlt. pose proof (bpow_pos (-1074)) as Hu.
      rewrite Zlt_Qlt. revert Hlt Hu.
      generalize (inject_Z k') (inject_Z k) (bpow (-1074)). intros a b c ? ?. nra. }
    destruct (IH k' (conj Hk' Hkk) _ Fn Hp') as [n Hn].
    exists (S n). now rewrite Nat.iter_succ_r.
  - exists O. exact Hle.
Qed.

(** A nonzero finite price is not discounted to zero. *)
Lemma discounted_015_zero_iff p :
  is_finite p = true ->
  ((discounted 0.15 p =? 0)%float = true <-> (p =? 0)%float = true).
Proof.
  intros Fp. destruct (Qlt_le_dec (Qabs (F2Q p)) (bpow (-1070))) as [Hs|Hl].
  - destruct (small_magnitude_inv p Fp Hs) as [[s E]|(s & m & Hm & E)];
      rewrite <- (SF2Prim_Prim2SF p), E; clear E.
    2: do 4 (try destruct m as [m|m|]); try (exfalso; lia).
    all: destruct s;
      (split; intros E;
       first [ vm_compute; reflexivity | exfalso; vm_compute in E; discriminate E ]).
  - destruct rate_015 as (Fr & HR & Hr).
    destruct (discounted_tolerance 0.15 (3 # 20) p Fp Fr HR Hr) as (Fn & T).
    rewrite (eqb_F2Q _ 0%float Fn eq_refl), (eqb_F2Q p 0%float Fp eq_refl).
    change (F2Q 0) with (0 * bpow 0)%Q.
    revert Hl T. generalize (F2Q (discounted 0.15 p)) (F2Q p). intros a b Hl T.
    apply Qabs_Qle_condition in T. bpow_consts.
    split; intros E; exfalso; qabs_sign b; lra.
Qed.

End Binary64Grid.

Import Binary64Grid.

(** Every finite price settles: after finitely many discount calls, all of
    which return, the price is at most [3 * 2^-1074] in magnitude, and any
    number of further discounts leaves it equal, in Python's [==], to that
    price. *)
Theorem Sobremesa_desconto_settles (self : obj) p :
  self !! "_preco" = Some (VFloat p) -> is_finite p = true ->
  exists n pn,
    repeat_call Sobremesa.aplicar_desconto n self
    = Ok (<["_preco" := VFloat pn]> self) /\
    (Qabs (F2Q pn) <= 3 * bpow (-1074))%Q /\
    forall k,
      repeat_call Sobremesa.aplicar_desconto (n + k) self
      = Ok (<["_preco" := VFloat (Nat.iter k (discounted 0.15) pn)]> self) /\
      (Nat.iter k (discounted 0.15) pn =? pn)%float = true.
Proof.
  intros Hp Fp. destruct rate_015 as (Fr & [HR0 HR1] & _).
  assert (HR : (0 <= F2Q 0.15 <= 1)%Q) by (split; lra).
  destruct (finite_units p Fp) as (k0 & Hk0 & Hu).
  destruct (discount_settles_units k0 Hk0 p Fp Hu) as [n Hn].
  destruct (iter_discount_magnitude 0.15 p n Fp Fr HR) as (Fn & _).
  exists n, (Nat.iter n (discounted 0.15) p).
  rewrite Sobremesa_aplicar_desconto_body.
  split; [now apply repeat_call_iter|]. split; [exact Hn|].
  intros k. split.
  - rewrite (repeat_call_iter 0.15 (n + k) self p Hp).
    now rewrite Nat.add_comm, Nat.iter_add.
  - destruct (discounted_015_stays _ k Fn Hn) as [Fk Ek].
    now apply (eqb_F2Q _ _ Fk Fn).
Qed.

Lemma Sobremesa_desconto_settles_witness :
  (pet_gatou !! "_preco" = Some (VFloat 29.90) /\ is_finite 29.90%float = true) /\
  exists n pn,
    repeat_call Sobremesa.aplicar_desconto n pet_gatou
    = Ok (<["_preco" := VFloat pn]> pet_gatou) /\
    (Qabs (F2Q pn) <= 3 * bpow (-1074))%Q /\
    forall k,
      repeat_call Sobremesa.aplicar_desconto (n + k) pet_gatou
      = Ok (<["_preco" := VFloat (Nat.iter k (discounted 0.15) pn)]> pet_gatou) /\
      (Nat.iter k (discounted 0.15) pn =? pn)%float = true.
Proof.
  split; [split; reflexivity|].
  apply (Sobremesa_desconto_settles pet_gatou 29.90%float); reflexivity.
Defined.

(** However many discounts a dessert with a finite price gets, its price
    equals zero afterwards, in Python's [==], exactly when it was zero
    before: a nonzero price is never discounted away. *)
Theorem Sobremesa_desconto_zero_iff (n : nat) (self : obj) p :
  self !! "_preco" = Some (VFloat p) -> is_finite p = true ->
  repeat_call Sobremesa.aplicar_desconto n self
  = Ok (<["_preco" := VFloat (Nat.iter n (discounted 0.15) p)]> self) /\
  ((Nat.iter n (discounted 0.15) p =? 0)%float = true <-> (p =? 0)%float = true).
Proof.
  intros Hp Fp. split.
  { rewrite Sobremesa_aplicar_desconto_body. now apply repeat_call_iter. }
  destruct rate_015 as (Fr & [HR0 HR1] & _).
  assert (HR : (0 <= F2Q 0.15 <= 1)%Q) by (split; lra).
  induction n as [|n IH]; [reflexivity|].
  destruct (iter_discount_magnitude 0.15 p n Fp Fr HR) as (Fn & _).
  rewrite Nat.iter_succ, (discounted_015_zero_iff _ Fn). exact IH.
Qed.

Lemma Sobremesa_desconto_zero_iff_witness :
  (pet_gatou !! "_preco" = Some (VFloat 29.90) /\ is_finite 29.90%float = true) /\
  (repeat_call Sobremesa.aplicar_desconto 4 pet_gatou
   = Ok (<["_preco" := VFloat (Nat.iter 4 (discounted 0.15) 29.90%float)]> pet_gatou) /\
   ((Nat.iter 4 (discounted 0.15) 29.90 =? 0)%float = true <->
    (29.90 =? 0)%float = true)).
Proof.
  split; [split; reflexivity|].
  apply (Sobremesa_desconto_zero_iff 4 pet_gatou 29.90%float); reflexivity.
Defined.

(** * Two discounts in a row *)

(** Two discounts at a rate of at most a quarter leave the price within
    twice the tolerance of [(1 - r)^2 * p], for [r] the rate the float
    [rate] stands for. *)
Lemma discounted_twice_within rate (r : Q) p :
  is_finite p = true -> is_finite rate = true ->
  (0 <= F2Q rate <= 1 # 4)%Q ->
  (Qabs (F2Q rate - r) <= bpow (-55))%Q ->
  (0 <= r <= 1)%Q ->
  is_finite (discounted rate (discounted rate p)) = true /\
  (Qabs (F2Q (discounted rate (discounted rate p)) - (1 - r) * (1 - r) * F2Q p)
   <= 2 * (bpow (-52) * Qabs (F2Q p) + bpow (-1074)))%Q.
Proof.
  intros Fp Fr HR Hr Hr01.
  destruct (discounted_tolerance rate r p Fp Fr HR Hr) as (F1 & T1).
  destruct (discounted_tolerance rate r _ F1 Fr HR Hr) as (F2 & T2).
  destruct (discount_magnitude rate p Fp Fr) as (_ & M & _); [destruct HR; split; lra|].
  split; [exact F2|].
  assert (T2' : (Qabs (F2Q (discounted rate (discounted rate p))
                       - (1 - r) * F2Q (discounted rate p))
                 <= bpow (-52) * Qabs (F2Q p) + bpow (-1074))%Q).
  { eapply Qle_trans; [exact T2|]. apply Qplus_le_l.
    rewrite !(Qmult_comm (bpow (-52))).
    apply Qmult_le_compat_r; [exact M|apply Qlt_le_weak, bpow_pos]. }
  assert (Z : (Qabs ((1 - r) * (F2Q (discounted rate p) - (1 - r) * F2Q p))
               <= bpow (-52) * Qabs (F2Q p) + bpow (-1074))%Q).
  { rewrite Qabs_Qmult, (Qabs_pos (1 - r)) by lra.
    pose proof (Qabs_nonneg (F2Q (discounted rate p) - (1 - r) * F2Q p)) as H0.
    revert T1 H0.
    generalize (Qabs (F2Q (discounted rate p) - (1 - r) * F2Q p)).
    generalize (bpow (-52) * Qabs (F2Q p) + bpow (-1074))%Q.
    intros d e T1 H0. nra. }
  assert (E : (F2Q (discounted rate (discounted rate p)) - (1 - r) * (1 - r) * F2Q p
               == (F2Q (discounted rate (discounted rate p))
                   - (1 - r) * F2Q (discounted rate p))
                  + (1 - r) * (F2Q (discounted rate p) - (1 - r) * F2Q p))%Q) by ring.
  rewrite E. clear E T1 T2 M.
  revert T2' Z.
  generalize ((1 - r) * (F2Q (discounted rate p) - (1 - r) * F2Q p))%Q.
  generalize (F2Q (discounted rate (discounted rate p))
              - (1 - r) * F2Q (discounted rate p))%Q.
  generalize (bpow (-52) * Qabs (F2Q p) + bpow (-1074))%Q.
  intros d w z T2' Z.
  apply Qabs_Qle_condition in T2', Z. apply Qabs_Qle_condition. lra.
Qed.

(** The second discount at 15% leaves the once-discounted price as it is
    exactly for the prices of at most [4 * 2^-1074] in magnitude. *)
Lemma twice_same_015 p :
  is_finite p = true ->
  ((discounted 0.15 (discounted 0.15 p) =? discounted 0.15 p)%float = true <->
   (Qabs (F2Q p) <= 4 * bpow (-1074))%Q).
Proof.
  intros Fp. destruct (Qlt_le_dec (Qabs (F2Q p)) (bpow (-1070))) as [Hs|Hl].
  - destruct (small_magnitude_inv p Fp Hs) as [[s E]|(s & m & Hm & E)];
      rewrite <- (SF2Prim_Prim2SF p), E; clear E.
    2: do 4 (try destruct m as [m|m|]); try (exfalso; lia).
    all: destruct s;
      (split; intros E;
       [ first [ apply Qle_compute; vm_compute; reflexivity
               | exfalso; vm_compute in E; discriminate E ]
       | first [ vm_compute; reflexivity
               | exfalso; apply Qle_bool_iff in E; vm_compute in E; discriminate E ] ]).
  - destruct rate_015 as (Fr & HR & Hr).
    destruct (discounted_tolerance 0.15 (3 # 20) p Fp Fr HR Hr) as (F1 & T1).
    destruct (discounted_tolerance 0.15 (3 # 20) _ F1 Fr HR Hr) as (F2 & T2).
    split; intros E; exfalso.
    + apply (eqb_F2Q _ _ F2 F1) in E. rewrite E in T2. clear E.
      revert Hl T1 T2. generalize (F2Q (discounted 0.15 p)) (F2Q p).
      intros x P Hl T1 T2. apply Qabs_Qle_condition in T1, T2.
      bpow_consts. qabs_sign P; qabs_sign x; lra.
    + revert Hl E. generalize (Qabs (F2Q p)). intros a Hl E. bpow_consts. lra.
Qed.

(** At 10% the same holds up to [5 * 2^-1074]. *)
Lemma twice_same_010 p :
  is_finite p = true ->
  ((discounted 0.10 (discounted 0.10 p) =? discounted 0.10 p)%float = true <->
   (Qabs (F2Q p) <= 5 * bpow (-1074))%Q).
Proof.
  intros Fp. destruct (Qlt_le_dec (Qabs (F2Q p)) (bpow (-1070))) as [Hs|Hl].
  - destruct (small_magnitude_inv p Fp Hs) as [[s E]|(s & m & Hm & E)];
      rewrite <- (SF2Prim_Prim2SF p), E; clear E.
    2: do 4 (try destruct m as [m|m|]); try (exfalso; lia).
    all: destruct s;
      (split; intros E;
       [ first [ apply Qle_compute; vm_compute; reflexivity
               | exfalso; vm_compute in E; discriminate E ]
       | first [ vm_compute; reflexivity
               | exfalso; apply Qle_bool_iff in E; vm_compute in E; discriminate E ] ]).
  - destruct rate_010 as (Fr & HR & Hr).
    destruct (discounted_tolerance 0.10 (1 # 10) p Fp Fr HR Hr) as (F1 & T1).
    destruct (discounted_tolerance 0.10 (1 # 10) _ F1 Fr HR Hr) as (F2 & T2).
    split; intros E; exfalso.
    + apply (eqb_F2Q _ _ F2 F1) in E. rewrite E in T2. clear E.
      revert Hl T1 T2. generalize (F2Q (discounted 0.10 p)) (F2Q p).
      intros x P Hl T1 T2. apply Qabs_Qle_condition in T1, T2.
      bpow_consts. qabs_sign P; qabs_sign x; lra.
    + revert Hl E. generalize (Qabs (F2Q p)). intros a Hl E. bpow_consts. lra.
Qed.

(** A discount that changes a finite price lowers its magnitude. *)
Lemma discounted_changed_lowers rate x :
  is_finite x = true -> is_finite rate = true -> (0 <= F2Q rate <= 1)%Q ->
  (discounted rate x =? x)%float = false ->
  (Qabs (F2Q (discounted rate x)) < Qabs (F2Q x))%Q.
Proof.
  intros Fx Fr HR Hne.
  destruct (discount_magnitude rate x Fx Fr HR) as (Fn & M & S1 & S2).
  destruct (Qlt_le_dec (Qabs (F2Q (discounted rate x))) (Qabs (F2Q x))) as [|Hge];
    [assumption|exfalso].
  assert (E : (F2Q (discounted rate x) == F2Q x)%Q).
  { revert M Hge S1 S2. generalize (F2Q (discounted rate x)) (F2Q x).
    intros a b M Hge S1 S2. destruct (Qlt_le_dec b 0).
    - assert (a <= 0)%Q by (apply S2; lra).
      rewrite (Qabs_neg a), (Qabs_neg b) in * by lra. lra.
    - assert (0 <= a)%Q by (apply S1; lra).
      rewrite (Qabs_pos a), (Qabs_pos b) in * by lra. lra. }
  apply (eqb_F2Q _ _ Fn Fx) in E. rewrite E in Hne. discriminate Hne.
Qed.

(** C3, as the code has it, for the dessert of the sources and for the drink
    and the dish of the spec, the dish at any rate.  A second call returns
    whenever the first did, with no guard.  On an item with a float price [p]
    two calls store the discount of the discounted price.  When [p] is finite
    and the rate is at most a quarter the result is finite and within
    [2 * (2^-52 * |p| + 2^-1074)] of [(1 - rate)^2 * p]: of [0.85^2 * p] at
    15%, of [0.90^2 * p] at 10%.  And the result differs from the
    once-discounted price, and is smaller in magnitude, for every finite
    price above [4 * 2^-1074] in magnitude at 15% and above [5 * 2^-1074] at
    10%, and for no other. *)
Theorem desconto_twice
    (method : obj -> result (obj * val)) (rate : float) (self : obj) (p : float) :
  (method = Sobremesa.aplicar_desconto /\ rate = 0.15%float) \/
  (method = Bebida.aplicar_desconto /\ rate = 0.10%float) \/
  method = Prato.aplicar_desconto rate ->
  self !! "_preco" = Some (VFloat p) ->
  let p1 := discounted rate p in
  let p2 := discounted rate p1 in
  (forall (item item1 : obj) v,
     method item = Ok (item1, v) ->
     exists item2, method item1 = Ok (item2, VNone)) /\
  repeat_call method 1 self = Ok (<["_preco" := VFloat p1]> self) /\
  repeat_call method 2 self = Ok (<["_preco" := VFloat p2]> self) /\
  (is_finite p = true -> is_finite rate = true -> (0 <= F2Q rate <= 1 # 4)%Q ->
   is_finite p2 = true /\
   (Qabs (F2Q p2 - (1 - F2Q rate) * (1 - F2Q rate) * F2Q p)
    <= 2 * (bpow (-52) * Qabs (F2Q p) + bpow (-1074)))%Q) /\
  (is_finite p = true -> rate = 0.15%float ->
   (Qabs (F2Q p2 - (289 # 400) * F2Q p)
    <= 2 * (bpow (-52) * Qabs (F2Q p) + bpow (-1074)))%Q /\
   ((p2 =? p1)%float = true <-> (Qabs (F2Q p) <= 4 * bpow (-1074))%Q) /\
   ((4 * bpow (-1074) < Qabs (F2Q p))%Q -> (Qabs (F2Q p2) < Qabs (F2Q p1))%Q)) /\
  (is_finite p = true -> rate = 0.10%float ->
   (Qabs (F2Q p2 - (81 # 100) * F2Q p)
    <= 2 * (bpow (-52) * Qabs (F2Q p) + bpow (-1074)))%Q /\
   ((p2 =? p1)%float = true <-> (Qabs (F2Q p) <= 5 * bpow (-1074))%Q) /\
   ((5 * bpow (-1074) < Qabs (F2Q p))%Q -> (Qabs (F2Q p2) < Qabs (F2Q p1))%Q)).
Proof.
  intros Hm Hp p1 p2. subst p1 p2.
  assert (Hb : method = isub_preco rate).
  { destruct Hm as [[-> ->] | [[-> ->] | ->]]; reflexivity. }
  clear Hm. subst method.
  split.
  { intros item item1 v H. destruct (isub_preco_again _ _ _ _ H) as (q & _ & H2). eauto. }
  split; [exact (repeat_call_iter rate 1 self p Hp)|].
  split; [now apply repeat_call_twice|].
  split; [|split].
  - intros Fp Fr HR. apply discounted_twice_within; try assumption.
    + assert (E : (F2Q rate - F2Q rate == 0)%Q) by ring. rewrite E.
      change (Qabs 0) with 0%Q. apply Qlt_le_weak, bpow_pos.
    + destruct HR. split; lra.
  - intros Fp ->. destruct rate_015 as (Fr & HR & Hr).
    assert (HR1 : (0 <= F2Q 0.15 <= 1)%Q) by (destruct HR; split; lra).
    destruct (discount_magnitude 0.15 p Fp Fr HR1) as (F1 & _).
    split; [|split; [now apply twice_same_015|]].
    + assert (E : ((289 # 400) == (1 - (3 # 20)) * (1 - (3 # 20)))%Q) by reflexivity.
      rewrite E. apply discounted_twice_within; try assumption; split; lra.
    + intros Hgt. apply (discounted_changed_lowers 0.15 _ F1 Fr HR1).
      destruct (discounted 0.15 (discounted 0.15 p) =? discounted 0.15 p)%float eqn:E;
        [exfalso|reflexivity].
      apply (twice_same_015 p Fp) in E. lra.
  - intros Fp ->. destruct rate_010 as (Fr & HR & Hr).
    assert (HR1 : (0 <= F2Q 0.10 <= 1)%Q) by (destruct HR; split; lra).
    destruct (discount_magnitude 0.10 p Fp Fr HR1) as (F1 & _).
    split; [|split; [now apply twice_same_010|]].
    + assert (E : ((81 # 100) == (1 - (1 # 10)) * (1 - (1 # 10)))%Q) by reflexivity.
      rewrite E. apply discounted_twice_within; try assumption; split; lra.
    + intros Hgt. apply (discounted_changed_lowers 0.10 _ F1 Fr HR1).
      destruct (discounted 0.10 (discounted 0.10 p) =? discounted 0.10 p)%float eqn:E;
        [exfalso|reflexivity].
      apply (twice_same_010 p Fp) in E. lra.
Qed.

Lemma desconto_twice_witness :
  (((Sobremesa.aplicar_desconto = Sobremesa.aplicar_desconto /\ 0.15%float = 0.15%float) \/
    (Sobremesa.aplicar_desconto = Bebida.aplicar_desconto /\ 0.15%float = 0.10%float) \/
    Sobremesa.aplicar_desconto = Prato.aplicar_desconto 0.15) /\
   pet_gatou !! "_preco" = Some (VFloat 29.90)) /\
  ((forall (item item1 : obj) v,
      Sobremesa.aplicar_desconto item = Ok (item1, v) ->
      exists item2, Sobremesa.aplicar_desconto item1 = Ok (item2, VNone)) /\
   repeat_call Sobremesa.aplicar_desconto 1 pet_gatou
   = Ok (<["_preco" := VFloat (discounted 0.15 29.90)]> pet_gatou) /\
   repeat_call Sobremesa.aplicar_desconto 2 pet_gatou
   = Ok (<["_preco" := VFloat (discounted 0.15 (discounted 0.15 29.90))]> pet_gatou) /\
   (is_finite 29.90%float = true -> is_finite 0.15%float = true ->
    (0 <= F2Q 0.15%float <= 1 # 4)%Q ->
    is_finite (discounted 0.15 (discounted 0.15 29.90)) = true /\
    (Qabs (F2Q (discounted 0.15 (discounted 0.15 29.90))
           - (1 - F2Q 0.15%float) * (1 - F2Q 0.15%float) * F2Q 29.90%float)
     <= 2 * (bpow (-52) * Qabs (F2Q 29.90%float) + bpow (-1074)))%Q) /\
   (is_finite 29.90%float = true -> 0.15%float = 0.15%float ->
    (Qabs (F2Q (discounted 0.15 (discounted 0.15 29.90)) - (289 # 400) * F2Q 29.90%float)
     <= 2 * (bpow (-52) * Qabs (F2Q 29.90%float) + bpow (-1074)))%Q /\
    ((discounted 0.15 (discounted 0.15 29.90) =? discounted 0.15 29.90)%float = true <->
     (Qabs (F2Q 29.90%float) <= 4 * bpow (-1074))%Q) /\
    ((4 * bpow (-1074) < Qabs (F2Q 29.90%float))%Q ->
     (Qabs (F2Q (discounted 0.15 (discounted 0.15 29.90)))
      < Qabs (F2Q (discounted 0.15 29.90)))%Q)) /\
   (is_finite 29.90%float = true -> 0.15%float = 0.10%float ->
    (Qabs (F2Q (discounted 0.15 (discounted 0.15 29.90)) - (81 # 100) * F2Q 29.90%float)
     <= 2 * (bpow (-52) * Qabs (F2Q 29.90%float) + bpow (-1074)))%Q /\
    ((discounted 0.15 (discounted 0.15 29.90) =? discounted 0.15 29.90)%float = true <->
     (Qabs (F2Q 29.90%float) <= 5 * bpow (-1074))%Q) /\
    ((5 * bpow (-1074) < Qabs (F2Q 29.90%float))%Q ->
     (Qabs (F2Q (discounted 0.15 (discounted 0.15 29.90)))
      < Qabs (F2Q (discounted 0.15 29.90)))%Q))).
Proof.
  split; [split; [left; split; reflexivity|reflexivity]|].
  apply (desconto_twice Sobremesa.aplicar_desconto 0.15%float pet_gatou 29.90%float);
    [left; split; reflexivity|reflexivity].
Defined.

(** C3 as stated fails in three ways.  At a zero price two calls leave what
    one call leaves, the price times the rate.  At the price 43.0 two calls
    store 31.0675, which is none of [43.0 * 0.85 * 0.85], [43.0 * 0.7225] and
    the exact [0.7225 * 43].  And at an infinite price two calls store NaN. *)
Lemma desconto_twice_not_exact :
  (Sobremesa.new (VStr "Pet Gatou") (VFloat 0) (VStr "Doce") (VStr "pequena")
     (VStr "Chocolate belga Amarelo")
   = Ok (<["_preco" := VFloat 0]> pet_gatou) /\
   repeat_call Sobremesa.aplicar_desconto 2 (<["_preco" := VFloat 0]> pet_gatou)
   = Ok (<["_preco" := VFloat 0]> pet_gatou) /\
   repeat_call Sobremesa.aplicar_desconto 1 (<["_preco" := VFloat 0]> pet_gatou)
   = Ok (<["_preco" := VFloat 0]> pet_gatou) /\
   (0 * 0.85 = 0)%float) /\
  (repeat_call Sobremesa.aplicar_desconto 2 (<["_preco" := VFloat 43.0]> pet_gatou)
   = Ok (<["_preco" := VFloat 31.0675]> pet_gatou) /\
   (31.0675 =? 43.0 * 0.85 * 0.85)%float = false /\
   (31.0675 =? 43.0 * 0.7225)%float = false /\
   Qeq_bool (F2Q 31.0675%float) ((289 # 400) * F2Q 43.0%float) = false) /\
  (repeat_call Sobremesa.aplicar_desconto 2 (<["_preco" := VFloat infinity]> pet_gatou)
   = Ok (<["_preco" := VFloat nan]> pet_gatou) /\
   (infinity * 0.85 * 0.85 = infinity)%float /\
   (nan =? infinity)%float = false).
Proof.
  split; [repeat split; reflexivity|]. split.
  - split; [reflexivity|]. split; [reflexivity|]. split; [reflexivity|].
    vm_compute. reflexivity.
  - repeat split; reflexivity.
Qed.
